(** * Halix action SDK (src/src/index.ts): a shallow embedding

    The SDK is a TypeScript module; its functions work on untyped JavaScript
    values ([any]).  The embedding has three layers:

    - the JavaScript values the SDK handles and the language operations it
      applies to them (truthiness, property reads, [typeof], [<], string
      methods, [JSON.stringify], [Array.prototype.sort]);
    - the module state of the SDK (the exported [let] bindings), passed
      explicitly;
    - the SDK functions themselves, under the names they have in the source.

    Domain of values.  Values are [undefined] and JSON data: [null], booleans,
    numbers, strings, arrays and plain objects.  Numbers are the integers
    (written as [Z]; they stand for Numbers up to the safe integers, of
    magnitude at most 2^53 - 1, and the conversions between numbers and text
    are those of the safe integers), [NaN], the two infinities and negative
    zero; there are no fractional numbers.  Strings are sequences of code
    units below 256.  Objects are lists of own data properties in enumeration
    order, with distinct keys.  No value of this domain is a boxed [String],
    a function, a getter or a proxy.

    Property reads.  [getProp] resolves the own properties of a value
    ([length] and the indices for strings and arrays).  A name that the host
    finds on a built-in prototype ([constructor], [toString], ...) leads to a
    function or an object outside the domain, and from there a further read
    may even throw; [getProp] is no model of such reads.  The statements
    about reads either fix the names that are read, or are equations that
    hold whatever a read returns. *)

From Stdlib Require Import ZArith NArith Ascii String List Bool Lia Permutation Sorted.
From Stdlib Require Import DecimalString DecimalFacts DecimalPos DecimalN DecimalZ.
From stdpp Require Import base option list strings gmap.

Import ListNotations.
Local Open Scope string_scope.
Local Open Scope Z_scope.

#[local] Arguments String.append !_ _ / : simpl nomatch.

(** ** JavaScript values *)

Inductive JSNumber : Type :=
| NaN
| PosInfinity
| NegInfinity
| NegZero
| Int (z : Z).

Unset Elimination Schemes.
Inductive JSValue : Type :=
| VUndefined
| VNull
| VBool (b : bool)
| VNumber (n : JSNumber)
| VString (s : string)
| VArray (elems : list JSValue)
| VObject (fields : list (string * JSValue)).
Set Elimination Schemes.

(** Errors a call can throw (or an [async] call can reject with). *)
Inductive JSError : Type :=
| TypeError (msg : string)
| SyntaxError (msg : string)
| Rejection (reason : JSValue).

(** Outcome of evaluating an expression that may throw. *)
Inductive Completion (A : Type) : Type :=
| Normal (a : A)
| Throw (e : JSError).
Arguments Normal {A} a.
Arguments Throw {A} e.

#[global] Instance Completion_ret : MRet Completion := fun A a => Normal a.
#[global] Instance Completion_bind : MBind Completion := fun A B k c =>
  match c with
  | Normal a => k a
  | Throw e => Throw e
  end.

(** Number and string literals *)
Definition num (z : Z) : JSValue := VNumber (Int z).
Definition str (s : string) : JSValue := VString s.

(** *** Truthiness (ToBoolean) and typeof *)

Definition truthy (v : JSValue) : bool :=
  match v with
  | VUndefined | VNull => false
  | VBool b => b
  | VNumber NaN | VNumber NegZero => false
  | VNumber (Int z) => negb (z =? 0)
  | VNumber _ => true
  | VString s => negb (String.eqb s "")
  | VArray _ | VObject _ => true
  end.

Definition typeOf (v : JSValue) : string :=
  match v with
  | VUndefined => "undefined"
  | VNull => "object"
  | VBool _ => "boolean"
  | VNumber _ => "number"
  | VString _ => "string"
  | VArray _ | VObject _ => "object"
  end.

(** [v instanceof String]: true of boxed strings only, and the domain has
    none. *)
Definition instanceofString (v : JSValue) : bool := false.

(** *** Strings *)

(** [s.split(sep)] for a one-character separator. [cur] holds the characters
    of the piece being read. *)
Fixpoint splitFrom (sep : ascii) (cur : string) (s : string) : list string :=
  match s with
  | EmptyString => [cur]
  | String c rest =>
      if Ascii.eqb c sep then cur :: splitFrom sep "" rest
      else splitFrom sep (cur ++ String c "") rest
  end.

Definition split (sep : ascii) (s : string) : list string := splitFrom sep "" s.

(** [stripPrefix p s] is [Some r] when [s = p ++ r]. *)
Fixpoint stripPrefix (p s : string) : option string :=
  match p, s with
  | EmptyString, _ => Some s
  | String a p', String b s' => if Ascii.eqb a b then stripPrefix p' s' else None
  | String _ _, EmptyString => None
  end.

(** [s.replace(pat, rep)] for string [pat] and a replacement without [$]:
    the first occurrence of [pat] is replaced, the others stay. *)
Fixpoint replace (pat rep s : string) : string :=
  match stripPrefix pat s with
  | Some r => rep ++ r
  | None =>
      match s with
      | EmptyString => EmptyString
      | String c s' => String c (replace pat rep s')
      end
  end.

(** *** Property reads *)

Definition digitValue (c : ascii) : option N :=
  let n := N_of_ascii c in
  if ((48 <=? n) && (n <=? 57))%N then Some (n - 48)%N else None.

Fixpoint digitsValue (acc : N) (s : string) : option N :=
  match s with
  | EmptyString => Some acc
  | String c rest =>
      match digitValue c with
      | Some d => digitsValue (acc * 10 + d)%N rest
      | None => None
      end
  end.

(** A property key that is a canonical array index: ["0"], or digits with no
    leading zero. *)
Definition arrayIndex (key : string) : option nat :=
  match key with
  | EmptyString => None
  | String "0" EmptyString => Some 0%nat
  | String "0" _ => None
  | _ => N.to_nat <$> digitsValue 0%N key
  end.

Fixpoint lookupField (key : string) (fields : list (string * JSValue)) : option JSValue :=
  match fields with
  | [] => None
  | (k, v) :: rest => if String.eqb k key then Some v else lookupField key rest
  end.

Definition orUndefined (o : option JSValue) : JSValue :=
  match o with
  | Some v => v
  | None => VUndefined
  end.

(** [v[key]] for a key that names an own property of [v] or no property at
    all; names found on the built-in prototypes are outside this model.
    Reading a property of [undefined] or [null] throws. *)
Definition getProp (v : JSValue) (key : string) : Completion JSValue :=
  match v with
  | VUndefined => Throw (TypeError "Cannot read properties of undefined")
  | VNull => Throw (TypeError "Cannot read properties of null")
  | VBool _ | VNumber _ => Normal VUndefined
  | VString s =>
      if String.eqb key "length" then Normal (VNumber (Int (Z.of_nat (String.length s))))
      else Normal (orUndefined
             (i ← arrayIndex key; c ← String.get i s; Some (VString (String c ""))))
  | VArray elems =>
      if String.eqb key "length" then Normal (VNumber (Int (Z.of_nat (List.length elems))))
      else Normal (orUndefined (i ← arrayIndex key; nth_error elems i))
  | VObject fields => Normal (orUndefined (lookupField key fields))
  end.

(** ** Attribute path resolution *)

(** Body of the loop of [getValueFromObject] for one [component]. *)
Definition resolveComponent (value : JSValue) (component : string) : Completion JSValue :=
  if truthy value then
    let compSplit := split ":" component in
    if (1 <? Z.of_nat (List.length compSplit)) then
      let keyField := nth 1 compSplit "" in
      getProp value (replace "Key" "" keyField)
    else
      getProp value component
  else Normal value.

Fixpoint forComponents (value : JSValue) (components : list string) : Completion JSValue :=
  match components with
  | [] => Normal value
  | component :: rest =>
      value' ← resolveComponent value component;
      forComponents value' rest
  end.

Definition getValueFromObject (object : JSValue) (attribute : string) : Completion JSValue :=
  let components := split "." attribute in
  forComponents object components.

(** ** Conversions and the relational operators *)

(** Number::toString.  For an integer the decimal digits, which is what the
    code prints for the safe integers (magnitude at most 2^53 - 1); beyond
    them a Number prints the shortest digits that identify it, with an
    exponent from 1e21 on, and [Int] is not a model of them. *)
Definition numberToString (n : JSNumber) : string :=
  match n with
  | NaN => "NaN"
  | PosInfinity => "Infinity"
  | NegInfinity => "-Infinity"
  | NegZero => "0"
  | Int z => NilZero.string_of_int (Z.to_int z)
  end.

Fixpoint joinWith (sep : string) (pieces : list string) : string :=
  match pieces with
  | [] => ""
  | [p] => p
  | p :: rest => p ++ sep ++ joinWith sep rest
  end.

(** ToString. An array prints as its elements joined by commas, with
    [undefined] and [null] elements printed as the empty string; a plain
    object prints as ["[object Object]"]. *)
Fixpoint toString (v : JSValue) : string :=
  match v with
  | VUndefined => "undefined"
  | VNull => "null"
  | VBool true => "true"
  | VBool false => "false"
  | VNumber n => numberToString n
  | VString s => s
  | VArray elems =>
      joinWith ","
        ((fix each (l : list JSValue) : list string :=
            match l with
            | [] => []
            | VUndefined :: rest => "" :: each rest
            | VNull :: rest => "" :: each rest
            | e :: rest => toString e :: each rest
            end) elems)
  | VObject _ => "[object Object]"
  end.

(** ToPrimitive: arrays and plain objects convert through their [toString]. *)
Definition toPrimitive (v : JSValue) : JSValue :=
  match v with
  | VArray _ | VObject _ => VString (toString v)
  | _ => v
  end.

(** What the host supplies and the SDK source does not define: the collation
    behind [String.prototype.localeCompare] (its sign is what matters), and the
    reading of a string as a number (StringToNumber). *)
Class Host : Type := {
  localeCompare : string -> string -> Z;
  stringToNumber : string -> JSNumber
}.

Definition numberValue (n : JSNumber) : Z :=
  match n with
  | Int z => z
  | _ => 0
  end.

(** [x < y] on numbers: false as soon as one side is [NaN]. *)
Definition numberLt (x y : JSNumber) : bool :=
  match x with
  | NaN => false
  | PosInfinity => false
  | NegInfinity =>
      match y with
      | NaN | NegInfinity => false
      | _ => true
      end
  | NegZero | Int _ =>
      match y with
      | NaN | NegInfinity => false
      | PosInfinity => true
      | NegZero | Int _ => numberValue x <? numberValue y
      end
  end.

(** [String.prototype.toLowerCase] on code units below 256: the letters
    [A]-[Z] and the upper-case letters of Latin-1 (U+00C0 to U+00DE but the
    multiplication sign U+00D7) move up by 32. *)
Definition lowerUnit (c : ascii) : ascii :=
  let n := N_of_ascii c in
  if ((65 <=? n) && (n <=? 90) || (192 <=? n) && (n <=? 222) && negb (n =? 215))%N
  then ascii_of_N (n + 32) else c.

Fixpoint toLowerCase (s : string) : string :=
  match s with
  | EmptyString => EmptyString
  | String c rest => String (lowerUnit c) (toLowerCase rest)
  end.

(** [v.toLowerCase()]: only strings have the method. *)
Definition callToLowerCase (v : JSValue) : Completion string :=
  match v with
  | VString s => Normal (toLowerCase s)
  | VUndefined | VNull => Throw (TypeError "Cannot read properties of undefined")
  | _ => Throw (TypeError "toLowerCase is not a function")
  end.

Section WithHost.
Context {host : Host}.

Definition toNumber (v : JSValue) : JSNumber :=
  match toPrimitive v with
  | VUndefined => NaN
  | VNull => Int 0
  | VBool true => Int 1
  | VBool false => Int 0
  | VNumber n => n
  | VString s => stringToNumber s
  | _ => NaN
  end.

(** [a < b]: two strings compare by code units, anything else as numbers. *)
Definition lessThan (a b : JSValue) : bool :=
  match toPrimitive a, toPrimitive b with
  | VString s, VString t => String.ltb s t
  | _, _ => numberLt (toNumber a) (toNumber b)
  end.

(** [a > b] *)
Definition greaterThan (a b : JSValue) : bool := lessThan b a.

(** ** Comparator and sort *)

(** The result is a number; [comp * -1] gives [-0] for [comp = 0], which every
    reader of the result ([!== 0], the sort) treats as [0], and is [0] here. *)
Definition compareValues (valueA valueB : JSValue) (descending caseInsensitive : bool)
  : Completion Z :=
  if caseInsensitive && (String.eqb (typeOf valueA) "string" || instanceofString valueA) then
    if truthy valueA && truthy valueB then
      lowerA ← callToLowerCase valueA;
      lowerB ← callToLowerCase valueB;
      let comp := localeCompare lowerA lowerB in
      let comp := if descending then comp * -1 else comp in
      Normal comp
    else if truthy valueA && negb (truthy valueB) then Normal (-1)
    else if negb (truthy valueA) && truthy valueB then Normal 1
    else Normal 0
  else
    if lessThan valueA valueB then Normal (if descending then 1 else -1)
    else if greaterThan valueA valueB then Normal (if descending then -1 else 1)
    else Normal 0.

Record SortField : Type := {
  attributeId : string;
  descending : option bool;
  caseInsensitive : option bool;
  autoSequence : option bool
}.

(** [!!flag] for an optional boolean field. *)
Definition flag (o : option bool) : bool :=
  match o with
  | Some b => b
  | None => false
  end.

(** The [for (let s of sort)] loop of the comparator; [comparison] is the
    variable of that name. *)
Fixpoint forSortFields (a b : JSValue) (sort : list SortField) (comparison : Z)
  : Completion Z :=
  match sort with
  | [] => Normal comparison
  | s :: rest =>
      valueA ← getValueFromObject a (attributeId s);
      valueB ← getValueFromObject b (attributeId s);
      comparison ← compareValues valueA valueB (flag (descending s)) (flag (caseInsensitive s));
      if negb (comparison =? 0) then Normal comparison
      else forSortFields a b rest comparison
  end.

(** The arrow function handed to [array.sort]. *)
Definition sortComparator (sort : list SortField) (a b : JSValue) : Completion Z :=
  forSortFields a b sort 0.

End WithHost.

(** *** Array.prototype.sort *)

(** SortCompare: [undefined] elements go last and the comparator is not
    called on them. *)
Definition sortCompare (comparefn : JSValue -> JSValue -> Completion Z) (x y : JSValue)
  : Completion Z :=
  match x, y with
  | VUndefined, VUndefined => Normal 0
  | VUndefined, _ => Normal 1
  | _, VUndefined => Normal (-1)
  | _, _ => comparefn x y
  end.

(** The sort itself.  ECMA-262 leaves the sequence of calls to SortCompare to
    the implementation.  For a comparator that is consistent on the elements
    it fixes the arrangement: the elements in order, tied ones in the order
    they had.  The stable insertion sort below computes that arrangement, and
    it is the only one (see [stable_arrangement_unique]).  For a comparator
    that is not consistent the arrangement is the implementation's choice:
    the statements that fix an arrangement assume consistency, and the others
    say what every implementation does. *)
Fixpoint insertSorted (comparefn : JSValue -> JSValue -> Completion Z) (x : JSValue)
  (sorted : list JSValue) : Completion (list JSValue) :=
  match sorted with
  | [] => Normal [x]
  | y :: rest =>
      c ← sortCompare comparefn x y;
      if c <=? 0 then Normal (x :: y :: rest)
      else rest' ← insertSorted comparefn x rest; Normal (y :: rest')
  end.

Fixpoint arraySort (comparefn : JSValue -> JSValue -> Completion Z) (elems : list JSValue)
  : Completion (list JSValue) :=
  match elems with
  | [] => Normal []
  | x :: rest =>
      sorted ← arraySort comparefn rest;
      insertSorted comparefn x sorted
  end.

(** Arrays that are sorted in place live in a store and are passed by
    reference. *)
Definition ArrayRef : Type := nat.

(** [array.sort(...)] returns [array]; the store is written only when the
    sort completes. *)
Definition sortObjectArray {host : Host} (array : ArrayRef) (sort : list SortField)
  (store : gmap nat (list JSValue)) : Completion (ArrayRef * gmap nat (list JSValue)) :=
  match store !! array with
  | None => Throw (TypeError "array.sort is not a function")
  | Some elems =>
      sorted ← arraySort (sortComparator sort) elems;
      Normal (array, <[array := sorted]> store)
  end.

(** A host for evaluating examples: collation by code units; the empty
    string and plain digits read as the number they denote and anything else
    as [NaN], which is what StringToNumber gives for the strings of the
    examples. *)
Definition codeUnitCompare (s t : string) : Z :=
  match String.compare s t with
  | Lt => -1
  | Eq => 0
  | Gt => 1
  end.

Definition exampleHost : Host := {|
  localeCompare := codeUnitCompare;
  stringToNumber := fun s =>
    match digitsValue 0%N s with
    | Some n => Int (Z.of_N n)
    | None => NaN
    end
|}.

(** ** JSON.stringify *)

Definition dquote : ascii := "034"%char.
Definition backslash : ascii := "092"%char.

Definition hexDigit (n : N) : ascii :=
  if (n <? 10)%N then ascii_of_N (48 + n) else ascii_of_N (87 + n).

(** QuoteJSONString, one code unit at a time: the two-character escapes, then
    [\u00xx] for the other control characters, everything else as it is. *)
Definition quoteUnit (c : ascii) : string :=
  let n := N_of_ascii c in
  if (n =? 8)%N then String backslash "b"
  else if (n =? 9)%N then String backslash "t"
  else if (n =? 10)%N then String backslash "n"
  else if (n =? 12)%N then String backslash "f"
  else if (n =? 13)%N then String backslash "r"
  else if (n =? 34)%N then String backslash (String dquote "")
  else if (n =? 92)%N then String backslash (String backslash "")
  else if (n <? 32)%N then
    String backslash (String "u" (String "0" (String "0"
      (String (hexDigit (n / 16)) (String (hexDigit (n mod 16)) "")))))
  else String c "".

Fixpoint quoteUnits (s : string) : string :=
  match s with
  | EmptyString => EmptyString
  | String c rest => quoteUnit c ++ quoteUnits rest
  end.

Definition quoteJSONString (s : string) : string :=
  String dquote (quoteUnits s ++ String dquote "").

(** SerializeJSONProperty without a replacer or a gap. [None] is the
    [undefined] result: such a property is left out of an object and printed
    as [null] in an array.  [NaN] and the infinities print as [null]. *)
Fixpoint serializeJSON (v : JSValue) : option string :=
  match v with
  | VUndefined => None
  | VNull => Some "null"
  | VBool true => Some "true"
  | VBool false => Some "false"
  | VNumber NaN | VNumber PosInfinity | VNumber NegInfinity => Some "null"
  | VNumber n => Some (numberToString n)
  | VString s => Some (quoteJSONString s)
  | VArray elems =>
      Some ("[" ++ joinWith ","
        ((fix each (l : list JSValue) : list string :=
            match l with
            | [] => []
            | e :: rest => default "null" (serializeJSON e) :: each rest
            end) elems) ++ "]")
  | VObject fields =>
      Some ("{" ++ joinWith ","
        ((fix each (l : list (string * JSValue)) : list string :=
            match l with
            | [] => []
            | (k, e) :: rest =>
                match serializeJSON e with
                | Some text => (quoteJSONString k ++ ":" ++ text) :: each rest
                | None => each rest
                end
            end) fields) ++ "}")
  end.

(** [JSON.stringify(v)] *)
Definition JSON_stringify (v : JSValue) : JSValue :=
  match serializeJSON v with
  | Some text => VString text
  | None => VUndefined
  end.

(** ** Module state *)

(** The exported [let] bindings of the module. They are declared with types
    but hold whatever [initialize] read from the event. *)
Record Session : Type := {
  authToken : JSValue;
  sandboxKey : JSValue;
  serviceAddress : JSValue;
  actionSubject : JSValue;
  userContext : JSValue;
  params : JSValue;
  useBody : JSValue
}.

(** The state of a freshly loaded module: nothing is assigned yet. *)
Definition freshSession : Session := {|
  authToken := VUndefined; sandboxKey := VUndefined; serviceAddress := VUndefined;
  actionSubject := VUndefined; userContext := VUndefined; params := VUndefined;
  useBody := VUndefined
|}.

(** ** Response formatters *)

Definition prepareSuccessResponse (st : Session) (successResponse : JSValue) : JSValue :=
  if truthy (useBody st) then
    VObject [("statusCode", num 200); ("body", JSON_stringify successResponse)]
  else successResponse.

Definition prepareErrorResponse (st : Session) (errorMessage : string) : JSValue :=
  if truthy (useBody st) then
    VObject [("statusCode", num 400);
             ("body", JSON_stringify (VObject [("errorMessage", str errorMessage)]))]
  else VObject [("errorMessage", str errorMessage); ("responseType", str "error")].

(** ** Session initializer *)

Definition setUseBody (v : JSValue) (st : Session) : Session := {|
  authToken := authToken st; sandboxKey := sandboxKey st;
  serviceAddress := serviceAddress st; actionSubject := actionSubject st;
  userContext := userContext st; params := params st;
  useBody := v
|}.

(** [({ authToken, sandboxKey, serviceAddress, actionSubject, userContext,
    params } = body)]: six property reads, in this order, each assigned to the
    binding of the same name. *)
Definition assignFrom (body : JSValue) (st : Session) : Completion Session :=
  authToken' ← getProp body "authToken";
  sandboxKey' ← getProp body "sandboxKey";
  serviceAddress' ← getProp body "serviceAddress";
  actionSubject' ← getProp body "actionSubject";
  userContext' ← getProp body "userContext";
  params' ← getProp body "params";
  Normal {|
    authToken := authToken'; sandboxKey := sandboxKey';
    serviceAddress := serviceAddress'; actionSubject := actionSubject';
    userContext := userContext'; params := params';
    useBody := useBody st
  |}.

Definition initialize (event : JSValue) (st : Session) : Completion Session :=
  eventBody ← getProp event "body";
  let '(body, st) :=
    if truthy eventBody then (eventBody, setUseBody (VBool true) st) else (event, st) in
  if truthy body then assignFrom body st else Normal st.

(** ** Data access *)

Record AxiosRequest : Type := {
  method : string;
  url : string;
  data : JSValue;
  headers : list (string * string)
}.

Record AxiosResponse : Type := {
  status : Z;
  responseData : JSValue
}.

(** An [async] function body: what it logs, the requests it awaits, and how
    it settles.  A request that fails rejects the whole call (there is no
    [try]), so [next] is only given responses. *)
Inductive Async (A : Type) : Type :=
| Resolve (a : A)
| Reject (e : JSError)
| ConsoleLog (message : string) (next : Async A)
| AwaitAxios (request : AxiosRequest) (next : AxiosResponse -> Async A).
Arguments Resolve {A} a.
Arguments Reject {A} e.
Arguments ConsoleLog {A} message next.
Arguments AwaitAxios {A} request next.

Inductive Effect : Type :=
| Logged (message : string)
| Sent (request : AxiosRequest).

(** Runs an [async] body against a data service [network]; the result is the
    effects in order and how the promise settles. *)
Fixpoint run {A} (network : AxiosRequest -> Completion AxiosResponse) (p : Async A)
  : list Effect * Completion A :=
  match p with
  | Resolve a => ([], Normal a)
  | Reject e => ([], Throw e)
  | ConsoleLog message next =>
      let '(effects, settled) := run network next in
      (Logged message :: effects, settled)
  | AwaitAxios request next =>
      match network request with
      | Normal response =>
          let '(effects, settled) := run network (next response) in
          (Sent request :: effects, settled)
      | Throw e => ([Sent request], Throw e)
      end
  end.

Definition requestsOf (effects : list Effect) : list AxiosRequest :=
  omap (fun e => match e with Sent r => Some r | Logged _ => None end) effects.

Record SaveOptions : Type := {
  bypassValidation : option bool
}.

(** [opts?.bypassValidation] as a condition *)
Definition bypassRequested (opts : option SaveOptions) : bool :=
  match opts with
  | Some o => flag (bypassValidation o)
  | None => false
  end.

Definition saveRelatedObject (st : Session) (parentElementId parentKey elementId : string)
  (objectToSave : JSValue) (opts : option SaveOptions) : Async JSValue :=
  let url := toString (serviceAddress st) ++ "/schema/sandboxes/" ++ toString (sandboxKey st)
             ++ "/" ++ parentElementId ++ "/" ++ parentKey ++ "/" ++ elementId in
  let url := if bypassRequested opts then url ++ "?bypassValidation=true" else url in
  ConsoleLog ("Sending POST request to " ++ url ++ " with token " ++ toString (authToken st))
    (AwaitAxios
       {| method := "POST"; url := url; data := objectToSave;
          headers := [("Authorization", "Bearer " ++ toString (authToken st))] |}
       (fun response => Resolve (responseData response))).

(** ** JSON.parse and deep equality

    The SDK never parses JSON itself; the platform does, on the [body] that
    [prepareSuccessResponse] produces.  [JSON_parse] is the parser of
    ECMA-262 on the texts that denote values of the domain.  A number with a
    fraction or an exponent, an integer beyond the safe integers, and a [\u]
    escape of a code unit above 255 denote values outside the domain: the
    parser of ECMA-262 reads them, this one has no value to give and fails.
    The statements below parse only texts written by [JSON_stringify] from
    values of the domain, which hold none of these. *)

Definition isWhitespace (c : ascii) : bool :=
  let n := N_of_ascii c in
  ((n =? 32) || (n =? 9) || (n =? 10) || (n =? 13))%N.

Fixpoint skipWs (s : string) : string :=
  match s with
  | EmptyString => EmptyString
  | String c rest => if isWhitespace c then skipWs rest else s
  end.

Definition hexValue (c : ascii) : option N :=
  let n := N_of_ascii c in
  if ((48 <=? n) && (n <=? 57))%N then Some (n - 48)%N
  else if ((97 <=? n) && (n <=? 102))%N then Some (n - 87)%N
  else if ((65 <=? n) && (n <=? 70))%N then Some (n - 55)%N
  else None.

(** The character a two-character escape stands for. *)
Definition unescape (c : ascii) : option ascii :=
  let n := N_of_ascii c in
  if (n =? 34)%N then Some dquote
  else if (n =? 92)%N then Some backslash
  else if (n =? 47)%N then Some "/"%char
  else if (n =? 98)%N then Some (ascii_of_N 8)
  else if (n =? 102)%N then Some (ascii_of_N 12)
  else if (n =? 110)%N then Some (ascii_of_N 10)
  else if (n =? 114)%N then Some (ascii_of_N 13)
  else if (n =? 116)%N then Some (ascii_of_N 9)
  else None.

Definition prepend (c : ascii) (o : option (string * string)) : option (string * string) :=
  match o with
  | Some (t, rest) => Some (String c t, rest)
  | None => None
  end.

(** Reads a string literal after its opening quote; gives the string and
    the text after the closing quote. *)
Fixpoint parseStringBody (s : string) : option (string * string) :=
  match s with
  | EmptyString => None
  | String c r =>
      if Ascii.eqb c dquote then Some (EmptyString, r)
      else if Ascii.eqb c backslash then
        match r with
        | EmptyString => None
        | String e r1 =>
            if Ascii.eqb e "u" then
              match r1 with
              | String h1 (String h2 (String h3 (String h4 r2))) =>
                  match hexValue h1, hexValue h2, hexValue h3, hexValue h4 with
                  | Some a, Some b, Some c', Some d =>
                      let code := (((a * 16 + b) * 16 + c') * 16 + d)%N in
                      if (code <? 256)%N then prepend (ascii_of_N code) (parseStringBody r2)
                      else None
                  | _, _, _, _ => None
                  end
              | _ => None
              end
            else
              match unescape e with
              | Some ch => prepend ch (parseStringBody r1)
              | None => None
              end
        end
      else if (N_of_ascii c <? 32)%N then None
      else prepend c (parseStringBody r)
  end.

Definition isDigit (c : ascii) : bool :=
  let n := N_of_ascii c in ((48 <=? n) && (n <=? 57))%N.

(** The longest prefix of digits, and the rest. *)
Fixpoint spanDigits (s : string) : string * string :=
  match s with
  | EmptyString => (EmptyString, EmptyString)
  | String c rest =>
      if isDigit c then let '(ds, r) := spanDigits rest in (String c ds, r)
      else (EmptyString, s)
  end.

Definition startsFraction (s : string) : bool :=
  match s with
  | String c _ => Ascii.eqb c "." || Ascii.eqb c "e" || Ascii.eqb c "E"
  | EmptyString => false
  end.

Definition leadingZero (ds : string) : bool :=
  match ds with
  | String c (String _ _) => Ascii.eqb c "0"
  | _ => false
  end.

(** [Number.MAX_SAFE_INTEGER], 2^53 - 1.  Up to this magnitude every integer
    is a Number, and its decimal form is its digits. *)
Definition maxSafeInteger : Z := 9007199254740991.

(** A JSON number that denotes a safe integer: an optional minus sign, then
    ["0"] or digits that do not start with a zero, with no fraction and no
    exponent after them, of magnitude at most [maxSafeInteger]. *)
Definition parseNumber (s : string) : option (JSValue * string) :=
  let '(negative, s1) :=
    match s with
    | String c r => if Ascii.eqb c "-" then (true, r) else (false, s)
    | EmptyString => (false, s)
    end in
  let '(ds, rest) := spanDigits s1 in
  if leadingZero ds || startsFraction rest then None
  else
    d ← NilZero.uint_of_string ds;
    let n := Z.of_uint d in
    if n <=? maxSafeInteger then
      Some (VNumber (if negative then (if n =? 0 then NegZero else Int (- n)) else Int n),
            rest)
    else None.

(** CreateDataProperty on a property list: an existing key keeps its place
    and takes the new value, a new key goes last. *)
Fixpoint defineField (k : string) (v : JSValue) (fields : list (string * JSValue))
  : list (string * JSValue) :=
  match fields with
  | [] => [(k, v)]
  | (k', v') :: rest =>
      if String.eqb k' k then (k', v) :: rest else (k', v') :: defineField k v rest
  end.

Definition objectOf (members : list (string * JSValue)) : JSValue :=
  VObject (fold_left (fun fields '(k, v) => defineField k v fields) members []).

Fixpoint parseValue (fuel : nat) (s : string) : option (JSValue * string) :=
  match fuel with
  | O => None
  | S fuel' =>
      match skipWs s with
      | EmptyString => None
      | String c r =>
          if Ascii.eqb c "n" then rest ← stripPrefix "ull" r; Some (VNull, rest)
          else if Ascii.eqb c "t" then rest ← stripPrefix "rue" r; Some (VBool true, rest)
          else if Ascii.eqb c "f" then rest ← stripPrefix "alse" r; Some (VBool false, rest)
          else if Ascii.eqb c dquote then
            '(t, rest) ← parseStringBody r; Some (VString t, rest)
          else if Ascii.eqb c "[" then
            match skipWs r with
            | String c' r' =>
                if Ascii.eqb c' "]" then Some (VArray [], r')
                else '(l, rest) ← parseElements fuel' r; Some (VArray l, rest)
            | EmptyString => None
            end
          else if Ascii.eqb c "{" then
            match skipWs r with
            | String c' r' =>
                if Ascii.eqb c' "}" then Some (VObject [], r')
                else '(l, rest) ← parseMembers fuel' r; Some (objectOf l, rest)
            | EmptyString => None
            end
          else parseNumber (String c r)
      end
  end
with parseElements (fuel : nat) (s : string) : option (list JSValue * string) :=
  match fuel with
  | O => None
  | S fuel' =>
      '(v, rest) ← parseValue fuel' s;
      match skipWs rest with
      | String c r =>
          if Ascii.eqb c "," then '(l, rest') ← parseElements fuel' r; Some (v :: l, rest')
          else if Ascii.eqb c "]" then Some ([v], r)
          else None
      | EmptyString => None
      end
  end
with parseMembers (fuel : nat) (s : string) : option (list (string * JSValue) * string) :=
  match fuel with
  | O => None
  | S fuel' =>
      match skipWs s with
      | String q r0 =>
          if Ascii.eqb q dquote then
            '(k, rest0) ← parseStringBody r0;
            match skipWs rest0 with
            | String colon r1 =>
                if Ascii.eqb colon ":" then
                  '(v, rest) ← parseValue fuel' r1;
                  match skipWs rest with
                  | String c r =>
                      if Ascii.eqb c "," then
                        '(l, rest') ← parseMembers fuel' r; Some ((k, v) :: l, rest')
                      else if Ascii.eqb c "}" then Some ([(k, v)], r)
                      else None
                  | EmptyString => None
                  end
                else None
            | EmptyString => None
            end
          else None
      | EmptyString => None
      end
  end.

Definition parseJSONText (text : string) : Completion JSValue :=
  match parseValue (S (String.length text)) text with
  | Some (v, rest) =>
      match skipWs rest with
      | EmptyString => Normal v
      | String _ _ => Throw (SyntaxError "Unexpected non-whitespace character after JSON")
      end
  | None => Throw (SyntaxError "Unexpected token in JSON")
  end.

(** [JSON.parse(v)]: the argument is converted to a string first. *)
Definition JSON_parse (v : JSValue) : Completion JSValue := parseJSONText (toString v).

(** SameValue on numbers: [NaN] is the same as [NaN], [-0] is not [0]. *)
Definition sameNumber (m n : JSNumber) : bool :=
  match m, n with
  | NaN, NaN | PosInfinity, PosInfinity | NegInfinity, NegInfinity | NegZero, NegZero => true
  | Int a, Int b => a =? b
  | _, _ => false
  end.

(** Deep equality as test libraries have it: same kind of value, arrays
    element by element, objects with the same keys (in any order) and
    deep-equal values under each key. *)
Fixpoint deepEqual (a b : JSValue) : bool :=
  match a, b with
  | VUndefined, VUndefined => true
  | VNull, VNull => true
  | VBool x, VBool y => Bool.eqb x y
  | VNumber m, VNumber n => sameNumber m n
  | VString s, VString t => String.eqb s t
  | VArray l, VArray m =>
      (fix each (l m : list JSValue) : bool :=
         match l, m with
         | [], [] => true
         | x :: l', y :: m' => deepEqual x y && each l' m'
         | _, _ => false
         end) l m
  | VObject f, VObject g =>
      (List.length f =? List.length g)%nat &&
      (fix each (l : list (string * JSValue)) : bool :=
         match l with
         | [] => true
         | (k, v) :: l' =>
             match lookupField k g with
             | Some w => deepEqual v w
             | None => false
             end && each l'
         end) f
  | _, _ => false
  end.

Fixpoint distinctKeys (fields : list (string * JSValue)) : bool :=
  match fields with
  | [] => true
  | (k, _) :: rest =>
      match lookupField k rest with
      | Some _ => false
      | None => distinctKeys rest
      end
  end.

(** The values that JSON carries unchanged: [null], booleans, strings, the
    safe integers, and arrays and objects (with distinct keys) of these; no
    [undefined], [NaN], infinity or negative zero at any depth. *)
Fixpoint jsonData (v : JSValue) : bool :=
  match v with
  | VUndefined => false
  | VNull | VBool _ | VString _ => true
  | VNumber (Int z) => Z.abs z <=? maxSafeInteger
  | VNumber _ => false
  | VArray elems =>
      (fix each (l : list JSValue) : bool :=
         match l with
         | [] => true
         | e :: rest => jsonData e && each rest
         end) elems
  | VObject fields =>
      distinctKeys fields &&
      (fix each (l : list (string * JSValue)) : bool :=
         match l with
         | [] => true
         | (_, e) :: rest => jsonData e && each rest
         end) fields
  end.

(** ** Notions the statements below are written with *)

(** What the property read [getProp] gives, and [undefined] where it throws
    (on the two nullish values). *)
Definition descend (value : JSValue) (field : string) : JSValue :=
  match getProp value field with
  | Normal v => v
  | Throw _ => VUndefined
  end.

Fixpoint hasColon (s : string) : bool :=
  match s with
  | EmptyString => false
  | String c rest => Ascii.eqb c ":" || hasColon rest
  end.

(** The walk along a path as the specification words it.  At a falsy value
    the walk is over and that value is the result.  At a truthy value a
    segment without a colon names the property to read, [value[segment]], and
    the walk goes on from what the read gives; a segment with a colon is
    resolved as the code resolves it. *)
Fixpoint walkSegments (value : JSValue) (segments : list string) : Completion JSValue :=
  match segments with
  | [] => Normal value
  | segment :: rest =>
      if truthy value then
        next ← (if hasColon segment then resolveComponent value segment
                else getProp value segment);
        walkSegments next rest
      else Normal value
  end.

(** [s] without a trailing [suffix], or [s] itself when it does not end so. *)
Fixpoint stripSuffix (suffix s : string) : string :=
  if String.eqb s suffix then EmptyString
  else
    match s with
    | EmptyString => EmptyString
    | String c rest => String c (stripSuffix suffix rest)
    end.

(** [pat] occurs somewhere in [s]. *)
Fixpoint occursIn (pat s : string) : bool :=
  match stripPrefix pat s with
  | Some _ => true
  | None =>
      match s with
      | EmptyString => false
      | String _ rest => occursIn pat rest
      end
  end.

(** The default relational ordering: what the comparator answers from [<]
    and [>] alone. *)
Definition defaultOrdering {host : Host} (a b : JSValue) (descending : bool) : Z :=
  if lessThan a b then (if descending then 1 else -1)
  else if greaterThan a b then (if descending then -1 else 1)
  else 0.

(** The six session fields by name. *)
Definition sessionFieldNames : list string :=
  ["authToken"; "sandboxKey"; "serviceAddress"; "actionSubject"; "userContext"; "params"].

Definition sessionFields (st : Session) : list (string * JSValue) :=
  [("authToken", authToken st); ("sandboxKey", sandboxKey st);
   ("serviceAddress", serviceAddress st); ("actionSubject", actionSubject st);
   ("userContext", userContext st); ("params", params st)].

(** Where [initialize] reads the session fields of an event from. *)
Definition fieldSource (event : JSValue) : JSValue :=
  if truthy (descend event "body") then descend event "body" else event.

(** The URL of the related objects of a parent, as the data service has
    it. *)
Definition relatedObjectUrl (service sandbox parentElementId parentKey elementId : string)
  : string :=
  service ++ "/schema/sandboxes/" ++ sandbox ++ "/" ++ parentElementId ++ "/"
          ++ parentKey ++ "/" ++ elementId.



(** [x] may stand before [y] in an array sorted with [comparefn]. *)
Definition mayPrecede (comparefn : JSValue -> JSValue -> Completion Z) (x y : JSValue) : Prop :=
  exists c : Z, sortCompare comparefn x y = Normal c /\ c <= 0.

(** ECMA-262 writes [a <CF b], [a =CF b] and [a >CF b] for
    [comparefn(a, b) < 0], [= 0] and [> 0]. *)
Definition ltCF (comparefn : JSValue -> JSValue -> Completion Z) (a b : JSValue) : Prop :=
  exists v : Z, comparefn a b = Normal v /\ v < 0.

Definition eqCF (comparefn : JSValue -> JSValue -> Completion Z) (a b : JSValue) : Prop :=
  comparefn a b = Normal 0.

Definition gtCF (comparefn : JSValue -> JSValue -> Completion Z) (a b : JSValue) : Prop :=
  exists v : Z, comparefn a b = Normal v /\ 0 < v.

(** A consistent comparison function for the elements of an array, as
    ECMA-262 defines it for [Array.prototype.sort]: on all elements [a], [b]
    and [c], a call returns a number (and always the same, as the comparators
    here are functions); [a =CF a]; [a =CF b] implies [b =CF a]; and each of
    [=CF], [<CF] and [>CF] is transitive.  Only for such a comparator does
    ECMA-262 fix the arrangement that [sort] leaves. *)
Definition consistentOn (comparefn : JSValue -> JSValue -> Completion Z)
  (elems : list JSValue) : Prop :=
  (forall a b, a ∈ elems -> b ∈ elems -> exists v : Z, comparefn a b = Normal v)
  /\ (forall a, a ∈ elems -> eqCF comparefn a a)
  /\ (forall a b, a ∈ elems -> b ∈ elems -> eqCF comparefn a b -> eqCF comparefn b a)
  /\ (forall a b c, a ∈ elems -> b ∈ elems -> c ∈ elems ->
        eqCF comparefn a b -> eqCF comparefn b c -> eqCF comparefn a c)
  /\ (forall a b c, a ∈ elems -> b ∈ elems -> c ∈ elems ->
        ltCF comparefn a b -> ltCF comparefn b c -> ltCF comparefn a c)
  /\ (forall a b c, a ∈ elems -> b ∈ elems -> c ∈ elems ->
        gtCF comparefn a b -> gtCF comparefn b c -> gtCF comparefn a c).

(** [x] and [y] tie: SortCompare gives [0]. *)
Definition tied (comparefn : JSValue -> JSValue -> Completion Z) (x y : JSValue) : bool :=
  match sortCompare comparefn x y with
  | Normal c => c =? 0
  | Throw _ => false
  end.

(** [v === undefined]. *)
Definition isUndefined (v : JSValue) : bool :=
  match v with
  | VUndefined => true
  | _ => false
  end.

(** What may follow a value in a JSON text: the end, a comma or a closing
    bracket. *)
Definition delimited (rest : string) : bool :=
  match rest with
  | EmptyString => true
  | String c _ => Ascii.eqb c "," || Ascii.eqb c "]" || Ascii.eqb c "}"
  end.

(** The number of values in a value, itself included. *)
Fixpoint size (v : JSValue) : nat :=
  match v with
  | VArray elems =>
      S ((fix each (l : list JSValue) : nat :=
            match l with
            | [] => O
            | e :: rest => S (size e + each rest)
            end) elems)
  | VObject fields =>
      S ((fix each (l : list (string * JSValue)) : nat :=
            match l with
            | [] => O
            | (_, e) :: rest => S (size e + each rest)
            end) fields)
  | _ => 1%nat
  end.



(** ** Reading functions: [getRelatedObjects] and [getObject]

    A GET carries query parameters and no data.  The [async] bodies of the
    two reading functions are written over their own request type. *)

Record AxiosGetRequest : Type := {
  getUrl : string;
  getHeaders : list (string * string);
  getParams : option (list (string * string))
}.

Inductive AsyncRead (A : Type) : Type :=
| ReadResolve (a : A)
| ReadLog (message : string) (next : AsyncRead A)
| AwaitGet (request : AxiosGetRequest) (next : AxiosResponse -> AsyncRead A).
Arguments ReadResolve {A} a.
Arguments ReadLog {A} message next.
Arguments AwaitGet {A} request next.

Inductive ReadEffect : Type :=
| ReadLogged (message : string)
| GetSent (request : AxiosGetRequest).

Fixpoint runRead {A} (network : AxiosGetRequest -> Completion AxiosResponse)
  (p : AsyncRead A) : list ReadEffect * Completion A :=
  match p with
  | ReadResolve a => ([], Normal a)
  | ReadLog message next =>
      let '(effects, settled) := runRead network next in
      (ReadLogged message :: effects, settled)
  | AwaitGet request next =>
      match network request with
      | Normal response =>
          let '(effects, settled) := runRead network (next response) in
          (GetSent request :: effects, settled)
      | Throw e => ([GetSent request], Throw e)
      end
  end.

Definition getRequestsOf (effects : list ReadEffect) : list AxiosGetRequest :=
  omap (fun e => match e with GetSent r => Some r | ReadLogged _ => None end) effects.

(** [if (filter)] for the optional string parameter: an empty string counts
    as no filter. *)
Definition filterGiven (filter : option string) : bool :=
  match filter with
  | Some f => negb (String.eqb f "")
  | None => false
  end.

(** [if (fetchedRelationships)] for the optional array parameter: an array,
    empty or not, is truthy. *)
Definition relationshipsGiven (fetchedRelationships : option (list string)) : bool :=
  match fetchedRelationships with
  | Some _ => true
  | None => false
  end.

(** The object [p] of [getRelatedObjects] as [URLSearchParams] reads it: its
    entries in the order they were assigned. *)
Definition relatedObjectsParams (filter : option string)
  (fetchedRelationships : option (list string)) : option (list (string * string)) :=
  if filterGiven filter || relationshipsGiven fetchedRelationships then
    let p := [] in
    let p := match filter with
             | Some f => if filterGiven filter then (p ++ [("filter", f)])%list else p
             | None => p
             end in
    let p := match fetchedRelationships with
             | Some names => (p ++ [("fetchedRelationships", joinWith "," names)])%list
             | None => p
             end in
    Some p
  else None.

Definition getRelatedObjects (st : Session) (parentElementId parentKey elementId : string)
  (filter : option string) (fetchedRelationships : option (list string))
  : AsyncRead JSValue :=
  let params := relatedObjectsParams filter fetchedRelationships in
  let url := toString (serviceAddress st) ++ "/schema/sandboxes/" ++ toString (sandboxKey st)
             ++ "/" ++ parentElementId ++ "/" ++ parentKey ++ "/" ++ elementId in
  ReadLog ("Sending GET request to " ++ url ++ " with token " ++ toString (authToken st))
    (AwaitGet
       {| getUrl := url;
          getHeaders := [("Authorization", "Bearer " ++ toString (authToken st))];
          getParams := params |}
       (fun response => ReadResolve (responseData response))).

(** The [params] of [getObject]. *)
Definition objectParams (fetchedRelationships : option (list string))
  : option (list (string * string)) :=
  match fetchedRelationships with
  | Some names => Some [("fetchedRelationships", joinWith "," names)]
  | None => None
  end.

Definition getObject (st : Session) (dataElementId key : string)
  (fetchedRelationships : option (list string)) : AsyncRead JSValue :=
  let params := objectParams fetchedRelationships in
  let url := toString (serviceAddress st) ++ "/schema/sandboxes/" ++ toString (sandboxKey st)
             ++ "/" ++ dataElementId ++ "/" ++ key in
  ReadLog ("Sending GET request to " ++ url ++ " with token " ++ toString (authToken st))
    (AwaitGet
       {| getUrl := url;
          getHeaders := [("Authorization", "Bearer " ++ toString (authToken st))];
          getParams := params |}
       (fun response => ReadResolve (responseData response))).

(** ** Notions of the further properties *)

Fixpoint hasChar (c : ascii) (s : string) : bool :=
  match s with
  | EmptyString => false
  | String a rest => Ascii.eqb a c || hasChar c rest
  end.

(** A comparison with its sign turned. *)
Definition negated (c : Completion Z) : Completion Z := x ← c; Normal (- x).

(** The decimal numeral of a natural number, as an array index is written. *)
Definition indexKey (i : nat) : string := NilZero.string_of_uint (N.to_uint (N.of_nat i)).

Fixpoint allDigits (s : string) : bool :=
  match s with
  | EmptyString => true
  | String c rest => isDigit c && allDigits rest
  end.

(** Two sort fields that order alike: the same attribute, direction and
    case rule. *)
Definition sameOrdering (s t : SortField) : Prop :=
  attributeId s = attributeId t
  /\ flag (descending s) = flag (descending t)
  /\ flag (caseInsensitive s) = flag (caseInsensitive t).

(** * Theorems *)

(** ** Property reads *)

Lemma getProp_truthy (value : JSValue) (key : string) :
  truthy value = true -> getProp value key = Normal (descend value key).
Proof.
  unfold descend.
  destruct value; simpl; try discriminate; intros _; try reflexivity.
  - destruct (String.eqb key "length"); reflexivity.
  - destruct (String.eqb key "length"); reflexivity.
Qed.

Lemma descend_object_missing (fields : list (string * JSValue)) (key : string) :
  lookupField key fields = None -> descend (VObject fields) key = VUndefined.
Proof. unfold descend. simpl. intros ->. reflexivity. Qed.

(** ** Splitting *)

Lemma append_assoc_char (cur : string) (c : ascii) (s : string) :
  (cur ++ String c "") ++ s = cur ++ String c s.
Proof. induction cur as [|a cur IH]; simpl; [reflexivity | now rewrite IH]. Qed.

Lemma append_empty_r (s : string) : s ++ "" = s.
Proof. induction s as [|a s IH]; simpl; [reflexivity | now rewrite IH]. Qed.

Lemma length_append (s t : string) :
  String.length (s ++ t) = (String.length s + String.length t)%nat.
Proof. induction s as [|a s IH]; simpl; [reflexivity | now rewrite IH]. Qed.

Lemma hasColon_append (s t : string) :
  hasColon (s ++ t) = hasColon s || hasColon t.
Proof.
  induction s as [|a s IH]; simpl; [reflexivity|].
  rewrite IH. now rewrite orb_assoc.
Qed.

Lemma splitFrom_colon_free (cur s : string) :
  hasColon s = false -> splitFrom ":" cur s = [cur ++ s].
Proof.
  revert cur. induction s as [|c s IH]; simpl; intros cur H.
  - now rewrite append_empty_r.
  - apply orb_false_iff in H as [Hc Hs].
    rewrite Hc. rewrite IH by assumption. now rewrite append_assoc_char.
Qed.

Lemma split_colon_free (s : string) : hasColon s = false -> split ":" s = [s].
Proof. intros H. unfold split. now rewrite splitFrom_colon_free. Qed.

Lemma splitFrom_keeps_colon_free (sep : ascii) (cur s : string) :
  hasColon cur = false -> hasColon s = false ->
  Forall (fun piece => hasColon piece = false) (splitFrom sep cur s).
Proof.
  revert cur. induction s as [|c s IH]; simpl; intros cur Hcur H.
  - constructor; [assumption | constructor].
  - apply orb_false_iff in H as [Hc Hs].
    destruct (Ascii.eqb c sep).
    + constructor; [assumption|]. now apply IH.
    + apply IH; [|assumption].
      rewrite hasColon_append. simpl. rewrite Hcur, Hc. reflexivity.
Qed.

(** ** Attribute path resolution *)

Lemma resolveComponent_falsy (value : JSValue) (component : string) :
  truthy value = false -> resolveComponent value component = Normal value.
Proof. unfold resolveComponent. now intros ->. Qed.

Lemma forComponents_falsy (value : JSValue) (components : list string) :
  truthy value = false -> forComponents value components = Normal value.
Proof.
  intros H. induction components as [|c rest IH]; simpl; [reflexivity|].
  rewrite resolveComponent_falsy by assumption. exact IH.
Qed.

Lemma resolveComponent_plain (value : JSValue) (component : string) :
  truthy value = true -> hasColon component = false ->
  resolveComponent value component = getProp value component.
Proof.
  intros Hv Hc. unfold resolveComponent. rewrite Hv.
  now rewrite split_colon_free by assumption.
Qed.

Lemma forComponents_walkSegments (components : list string) (value : JSValue) :
  forComponents value components = walkSegments value components.
Proof.
  revert value. induction components as [|c rest IH]; intros value; [reflexivity|].
  cbn [forComponents walkSegments]. destruct (truthy value) eqn:Hv.
  - destruct (hasColon c) eqn:Hc.
    + destruct (resolveComponent value c) as [next|e]; simpl; [apply IH | reflexivity].
    + rewrite resolveComponent_plain by assumption.
      destruct (getProp value c) as [next|e]; simpl; [apply IH | reflexivity].
  - rewrite resolveComponent_falsy by assumption. simpl.
    now apply forComponents_falsy.
Qed.

Lemma splitFrom_at_separator (sep : ascii) (cur p q : string) :
  splitFrom sep cur (p ++ String sep q)
  = (splitFrom sep cur p ++ splitFrom sep "" q)%list.
Proof.
  revert cur. induction p as [|c p IH]; intros cur; simpl.
  - now rewrite Ascii.eqb_refl.
  - destruct (Ascii.eqb c sep); [simpl; f_equal|]; apply IH.
Qed.

Lemma forComponents_app (first second : list string) (value : JSValue) :
  forComponents value (first ++ second)%list
  = (v ← forComponents value first; forComponents v second).
Proof.
  revert value. induction first as [|c rest IH]; intros value; simpl; [reflexivity|].
  destruct (resolveComponent value c) as [v|e]; simpl; [apply IH | reflexivity].
Qed.

Lemma getValueFromObject_app (object : JSValue) (p q : string) :
  getValueFromObject object (p ++ "." ++ q)
  = (v ← getValueFromObject object p; getValueFromObject v q).
Proof.
  unfold getValueFromObject, split.
  change (p ++ "." ++ q) with (p ++ String "." q).
  rewrite splitFrom_at_separator. apply forComponents_app.
Qed.

(** C4. For every object and every path, [getValueFromObject] is the walk
    over the dot-separated segments of the path, from left to right: at a
    truthy value a segment without a colon reads the property it names,
    [value[segment]], and at a falsy value the walk is over.  So a falsy
    object is returned as it is, without a read and without raising, and a
    path that leads to a falsy value gives that value however it goes on.
    [{a:{b:5}}] gives [5] at ["a.b"] and [undefined] at ["a.c"], [{a: null}]
    gives [null] at ["a.b.c"], and a segment without a colon is walked also
    after one with a colon: [{owner: {name: "X"}}] gives ["X"] at
    ["accountMember:ownerKey.name"]. *)
Theorem C4_getValueFromObject_walks_and_short_circuits :
  (forall (object : JSValue) (attribute : string),
      getValueFromObject object attribute = walkSegments object (split "." attribute))
  /\ (forall (value : JSValue) (attribute : string),
         truthy value = false -> getValueFromObject value attribute = Normal value)
  /\ (forall (object v : JSValue) (p q : string),
         getValueFromObject object p = Normal v -> truthy v = false ->
         getValueFromObject object (p ++ "." ++ q) = Normal v)
  /\ getValueFromObject (VObject [("a", VObject [("b", num 5)])]) "a.b" = Normal (num 5)
  /\ getValueFromObject (VObject [("a", VObject [("b", num 5)])]) "a.c" = Normal VUndefined
  /\ getValueFromObject (VObject [("a", VNull)]) "a.b.c" = Normal VNull
  /\ getValueFromObject (VObject [("owner", VObject [("name", str "X")])])
       "accountMember:ownerKey.name"
     = Normal (str "X").
Proof.
  split; [|split; [|split; [|repeat split; reflexivity]]].
  - intros object attribute. apply forComponents_walkSegments.
  - intros value attribute H. now apply forComponents_falsy.
  - intros object v p q Hp Hv. rewrite getValueFromObject_app, Hp. simpl.
    now apply forComponents_falsy.
Qed.

Lemma C4_witness :
  getValueFromObject (VObject [("a", VNull)]) "a" = Normal VNull
  /\ truthy VNull = false
  /\ getValueFromObject (VObject [("a", VNull)]) ("a" ++ "." ++ "b.c") = Normal VNull.
Proof.
  split; [reflexivity|]. split; [reflexivity|].
  apply (proj1 (proj2 (proj2 C4_getValueFromObject_walks_and_short_circuits))
           (VObject [("a", VNull)]) VNull "a" "b.c"); reflexivity.
Defined.

Lemma splitFrom_nonempty (sep : ascii) (cur s : string) :
  (1 <= List.length (splitFrom sep cur s))%nat.
Proof.
  revert cur. induction s as [|c s IH]; simpl; intros cur; [lia|].
  destruct (Ascii.eqb c sep); [simpl; lia | apply IH].
Qed.

Lemma splitFrom_colon_length (cur s : string) :
  hasColon s = true -> (2 <= List.length (splitFrom ":" cur s))%nat.
Proof.
  revert cur. induction s as [|c s IH]; simpl; intros cur H; [discriminate|].
  destruct (Ascii.eqb c ":") eqn:Hc.
  - simpl. pose proof (splitFrom_nonempty ":" "" s). lia.
  - simpl in H. now apply IH.
Qed.

(** With a colon in the segment, the field read is the second piece of the
    segment with its first ["Key"] taken out. *)
Lemma resolveComponent_colon (value : JSValue) (component : string) :
  truthy value = true -> hasColon component = true ->
  resolveComponent value component
  = getProp value (replace "Key" "" (nth 1 (split ":" component) "")).
Proof.
  intros Hv Hc. unfold resolveComponent. rewrite Hv.
  pose proof (splitFrom_colon_length "" component Hc) as Hlen.
  fold (split ":" component) in Hlen.
  destruct (1 <? Z.of_nat (List.length (split ":" component))) eqn:E; [reflexivity|].
  apply Z.ltb_ge in E. lia.
Qed.

Lemma stripSuffix_Key (base : string) : stripSuffix "Key" (base ++ "Key") = base.
Proof.
  induction base as [|c base IH]; [reflexivity|].
  change (stripSuffix "Key" (String c base ++ "Key"))
    with (if String.eqb (String c (base ++ "Key")) "Key" then EmptyString
          else String c (stripSuffix "Key" (base ++ "Key"))).
  destruct (String.eqb (String c (base ++ "Key")) "Key") eqn:E.
  - apply String.eqb_eq in E. apply (f_equal String.length) in E.
    simpl in E. rewrite length_append in E. simpl in E. lia.
  - now rewrite IH.
Qed.

(** Where ["Key"] occurs in the key field only at its end, taking out the
    first ["Key"] and stripping the trailing one are the same. *)
Lemma replace_Key_trailing (base : string) :
  occursIn "Key" (base ++ "Ke") = false ->
  replace "Key" "" (base ++ "Key") = stripSuffix "Key" (base ++ "Key").
Proof.
  rewrite stripSuffix_Key.
  induction base as [|c base IH]; [reflexivity|].
  intros H. change (occursIn "Key" (String c base ++ "Ke"))
    with (match stripPrefix "Key" (String c (base ++ "Ke")) with
          | Some _ => true
          | None => occursIn "Key" (base ++ "Ke")
          end) in H.
  destruct (stripPrefix "Key" (String c (base ++ "Ke"))) eqn:Hprefix; [discriminate|].
  change (replace "Key" "" (String c base ++ "Key"))
    with (match stripPrefix "Key" (String c (base ++ "Key")) with
          | Some r => "" ++ r
          | None => String c (replace "Key" "" (base ++ "Key"))
          end).
  assert (Hnone : stripPrefix "Key" (String c (base ++ "Key")) = None).
  { destruct base as [|b1 [|b2 base]]; cbn [stripPrefix String.append] in *.
    - destruct (Ascii.eqb "K" c); reflexivity.
    - destruct (Ascii.eqb "K" c); [|reflexivity].
      destruct (Ascii.eqb "e" b1); reflexivity.
    - destruct (Ascii.eqb "K" c); [|reflexivity].
      destruct (Ascii.eqb "e" b1); [|reflexivity].
      destruct (Ascii.eqb "y" b2); [discriminate | reflexivity]. }
  rewrite Hnone. now rewrite IH.
Qed.

Lemma replace_Key_trailing_example :
  occursIn "Key" ("ownerAccountMember" ++ "Ke") = false
  /\ replace "Key" "" "ownerAccountMemberKey" = "ownerAccountMember".
Proof.
  split; [reflexivity|].
  change (replace "Key" "" ("ownerAccountMember" ++ "Key") = "ownerAccountMember").
  rewrite (replace_Key_trailing "ownerAccountMember" eq_refl).
  apply stripSuffix_Key.
Defined.

(** C2. The segment ["accountMember:ownerAccountMemberKey"] resolves the
    field [ownerAccountMember], as the claim says.  But the code removes the
    first ["Key"] of the key field, not the trailing one: at
    ["accountMember:primaryKeyHolderKey"] it reads the field
    [primaryHolderKey] and returns [undefined], where stripping the trailing
    ["Key"] names the field [primaryKeyHolder], which holds [{name: "X"}]. *)
Theorem C2_Key_taken_out_at_first_occurrence :
  getValueFromObject
    (VObject [("ownerAccountMember", VObject [("name", str "X")])])
    "accountMember:ownerAccountMemberKey"
  = Normal (VObject [("name", str "X")])
  /\ replace "Key" "" "primaryKeyHolderKey" = "primaryHolderKey"
  /\ stripSuffix "Key" "primaryKeyHolderKey" = "primaryKeyHolder"
  /\ getValueFromObject
       (VObject [("primaryKeyHolder", VObject [("name", str "X")])])
       "accountMember:primaryKeyHolderKey"
     = Normal VUndefined
  /\ descend (VObject [("primaryKeyHolder", VObject [("name", str "X")])])
       (stripSuffix "Key" "primaryKeyHolderKey")
     = VObject [("name", str "X")].
Proof. repeat split; reflexivity. Qed.

(** ** Comparator *)

Section CompareValues.
Context {host : Host}.

Lemma compareValues_string_first (valueA valueB : JSValue) (descending : bool) :
  typeOf valueA = "string" ->
  compareValues valueA valueB descending true
  = if truthy valueA && truthy valueB then
      lowerA ← callToLowerCase valueA;
      lowerB ← callToLowerCase valueB;
      Normal (if descending then localeCompare lowerA lowerB * -1
              else localeCompare lowerA lowerB)
    else if truthy valueA && negb (truthy valueB) then Normal (-1)
    else if negb (truthy valueA) && truthy valueB then Normal 1
    else Normal 0.
Proof. intros H. unfold compareValues. rewrite H. reflexivity. Qed.

Lemma compareValues_other_first (valueA valueB : JSValue) (descending caseInsensitive : bool) :
  typeOf valueA <> "string" ->
  compareValues valueA valueB descending caseInsensitive
  = Normal (defaultOrdering valueA valueB descending).
Proof.
  intros H. unfold compareValues, defaultOrdering, instanceofString.
  destruct (String.eqb (typeOf valueA) "string") eqn:E.
  - apply String.eqb_eq in E. contradiction.
  - rewrite orb_false_r, andb_false_r.
    destruct (lessThan valueA valueB); [reflexivity|].
    destruct (greaterThan valueA valueB); reflexivity.
Qed.

Lemma numberLt_NaN_r (n : JSNumber) : numberLt n NaN = false.
Proof. destruct n; reflexivity. Qed.

Lemma lessThan_undefined_l (b : JSValue) : lessThan VUndefined b = false.
Proof. reflexivity. Qed.

Lemma lessThan_undefined_r (a : JSValue) : lessThan a VUndefined = false.
Proof.
  unfold lessThan. simpl (toPrimitive VUndefined).
  replace (toNumber VUndefined) with NaN by reflexivity.
  destruct (toPrimitive a); apply numberLt_NaN_r.
Qed.

Lemma compareValues_undefined_first (valueB : JSValue) (descending caseInsensitive : bool) :
  compareValues VUndefined valueB descending caseInsensitive = Normal 0.
Proof.
  rewrite compareValues_other_first by discriminate.
  unfold defaultOrdering, greaterThan.
  now rewrite lessThan_undefined_l, lessThan_undefined_r.
Qed.

(** C1 (amended). With [caseInsensitive] set and a string as first value:
    when exactly one of the two values is falsy the falsy one sorts after the
    truthy one whatever [descending] is (the result is [-1] when the first
    value is the truthy one and [1] when it is the falsy one), and when both
    are falsy the result is [0].  So [compareValues("", "x", false, true)] is
    [1] and [compareValues("x", "", true, true)] is [-1]. *)
Theorem C1_falsy_sorts_after_truthy :
  (forall (valueA valueB : JSValue) (descending : bool),
      typeOf valueA = "string" ->
      (truthy valueA = true -> truthy valueB = false ->
         compareValues valueA valueB descending true = Normal (-1))
      /\ (truthy valueA = false -> truthy valueB = true ->
            compareValues valueA valueB descending true = Normal 1)
      /\ (truthy valueA = false -> truthy valueB = false ->
            compareValues valueA valueB descending true = Normal 0))
  /\ compareValues (str "") (str "x") false true = Normal 1
  /\ compareValues (str "x") (str "") true true = Normal (-1).
Proof.
  split; [|split; reflexivity].
  intros valueA valueB descending H.
  repeat split; intros Ha Hb;
    rewrite compareValues_string_first by assumption;
    rewrite Ha, Hb; reflexivity.
Qed.

(** C10. The case-insensitive branch is chosen by the type of the first
    value alone: when the first value is not a string the result is the
    default relational ordering, also with [caseInsensitive] set and a string
    as second value; when it is a string the branch is taken whatever the
    second value is (a falsy one of any type sorts after it, and a truthy
    number is sent [toLowerCase], which throws).  The comparator is therefore
    not antisymmetric:
    [compareValues(undefined, "x", d, true)] is [0] and
    [compareValues("x", undefined, d, true)] is [-1]. *)
Theorem C10_branch_chosen_by_first_value :
  (forall (valueA : JSValue) (s : string) (descending : bool),
      typeOf valueA <> "string" ->
      compareValues valueA (VString s) descending true
      = Normal (defaultOrdering valueA (VString s) descending))
  /\ (forall (s : string) (valueB : JSValue) (descending : bool),
         truthy (VString s) = true -> truthy valueB = false ->
         compareValues (VString s) valueB descending true = Normal (-1))
  /\ (forall descending : bool,
         compareValues (str "x") (num 5) descending true
         = Throw (TypeError "toLowerCase is not a function"))
  /\ (forall descending : bool,
         exists (a b : JSValue) (x y : Z),
           compareValues a b descending true = Normal x
           /\ compareValues b a descending true = Normal y
           /\ x <> - y).
Proof.
  split; [|split; [|split; [reflexivity|]]].
  - intros valueA s descending H. now apply compareValues_other_first.
  - intros s valueB descending Ha Hb.
    rewrite compareValues_string_first by reflexivity.
    rewrite Ha, Hb. reflexivity.
  - intros descending. exists VUndefined, (str "x"), 0, (-1).
    split; [apply compareValues_undefined_first|].
    split; [reflexivity | lia].
Qed.

End CompareValues.

Lemma C1_witness :
  typeOf (str "x") = "string"
  /\ @compareValues exampleHost (str "x") VNull true true = Normal (-1).
Proof.
  split; [reflexivity|].
  apply (proj1 (@C1_falsy_sorts_after_truthy exampleHost) (str "x") VNull true eq_refl);
    reflexivity.
Defined.

(** C1 as stated fails: [compareValues("x", "", true, true)] is not [1]. *)
Lemma C1_counterexample :
  @compareValues exampleHost (str "x") (str "") true true <> Normal 1.
Proof. vm_compute. discriminate. Qed.

Lemma C10_witness :
  typeOf (num 0) <> "string"
  /\ @compareValues exampleHost (num 0) (str "x") false true
     = Normal (@defaultOrdering exampleHost (num 0) (str "x") false).
Proof.
  split; [discriminate|].
  apply (proj1 (@C10_branch_chosen_by_first_value exampleHost)). discriminate.
Defined.

(** ** Session initializer *)

Lemma assignFrom_truthy (body : JSValue) (st : Session) :
  truthy body = true ->
  assignFrom body st
  = Normal {|
      authToken := descend body "authToken"; sandboxKey := descend body "sandboxKey";
      serviceAddress := descend body "serviceAddress";
      actionSubject := descend body "actionSubject";
      userContext := descend body "userContext"; params := descend body "params";
      useBody := useBody st
    |}.
Proof.
  intros H. unfold assignFrom.
  repeat (rewrite (getProp_truthy body) by assumption; simpl).
  reflexivity.
Qed.

Lemma initialize_object (fields : list (string * JSValue)) (st : Session) :
  let event := VObject fields in
  initialize event st
  = Normal {|
      authToken := descend (fieldSource event) "authToken";
      sandboxKey := descend (fieldSource event) "sandboxKey";
      serviceAddress := descend (fieldSource event) "serviceAddress";
      actionSubject := descend (fieldSource event) "actionSubject";
      userContext := descend (fieldSource event) "userContext";
      params := descend (fieldSource event) "params";
      useBody := if truthy (descend event "body") then VBool true else useBody st
    |}.
Proof.
  intros event. unfold initialize, fieldSource.
  rewrite (getProp_truthy event "body") by reflexivity. simpl mbind.
  destruct (truthy (descend event "body")) eqn:Hb.
  - rewrite Hb. now rewrite assignFrom_truthy.
  - change (truthy event) with true. cbv iota. now rewrite assignFrom_truthy.
Qed.

Lemma initialize_useBody (event : JSValue) (st st' : Session) :
  initialize event st = Normal st' ->
  useBody st' = useBody st \/ useBody st' = VBool true.
Proof.
  unfold initialize. destruct (getProp event "body") as [eventBody|e]; [|discriminate].
  simpl. destruct (truthy eventBody) eqn:Hb.
  - rewrite Hb. rewrite assignFrom_truthy by assumption.
    intros [= <-]. now right.
  - destruct (truthy event) eqn:He.
    + rewrite assignFrom_truthy by assumption. intros [= <-]. now left.
    + intros [= <-]. now left.
Qed.

(** C7. For an event object, [initialize] returns normally and the six
    session fields hold what a property read of their name gives on
    [event.body] when the event has a body, and on the event itself
    otherwise; with a body [useBody] becomes [true].  The event has a body
    when its [body] field is truthy, which for the declared type (the field is
    absent or an event body object) is when it is present.  A field that the
    source object lacks is [undefined]. *)
Theorem C7_initialize_populates_session (fields : list (string * JSValue)) (st : Session) :
  let event := VObject fields in
  exists st' : Session,
    initialize event st = Normal st'
    /\ sessionFields st'
       = map (fun name => (name, descend (fieldSource event) name)) sessionFieldNames
    /\ (forall bodyFields : list (string * JSValue),
           lookupField "body" fields = Some (VObject bodyFields) ->
           fieldSource event = VObject bodyFields /\ useBody st' = VBool true)
    /\ (lookupField "body" fields = None ->
          fieldSource event = event /\ useBody st' = useBody st)
    /\ (truthy (descend event "body") = true ->
          fieldSource event = descend event "body" /\ useBody st' = VBool true)
    /\ (truthy (descend event "body") = false ->
          fieldSource event = event /\ useBody st' = useBody st)
    /\ (forall (sourceFields : list (string * JSValue)) (name : string),
           fieldSource event = VObject sourceFields ->
           In name sessionFieldNames ->
           lookupField name sourceFields = None ->
           lookupField name (sessionFields st') = Some VUndefined).
Proof.
  intros event. eexists. split; [apply initialize_object|].
  fold event. split; [reflexivity|].
  assert (Htruthy : truthy (descend event "body") = true ->
            fieldSource event = descend event "body"
            /\ (if truthy (descend event "body") then VBool true else useBody st)
               = VBool true).
  { intros H. unfold fieldSource. now rewrite H. }
  assert (Hfalsy : truthy (descend event "body") = false ->
            fieldSource event = event
            /\ (if truthy (descend event "body") then VBool true else useBody st)
               = useBody st).
  { intros H. unfold fieldSource. now rewrite H. }
  split; [|split; [|split; [exact Htruthy|split; [exact Hfalsy|]]]].
  - intros bodyFields Hbody.
    assert (Hd : descend event "body" = VObject bodyFields)
      by (unfold descend, event; simpl; now rewrite Hbody).
    rewrite <- Hd. apply Htruthy. now rewrite Hd.
  - intros Hbody. apply Hfalsy.
    unfold descend, event. simpl. now rewrite Hbody.
  - intros sourceFields name Hsrc Hin Hmissing.
    rewrite Hsrc. simpl in Hin.
    destruct Hin as [<-|[<-|[<-|[<-|[<-|[<-|[]]]]]]]; simpl;
      now rewrite descend_object_missing.
Qed.

Lemma C7_witness :
  truthy (descend (VObject [("body", VObject [("authToken", str "t")])]) "body") = true
  /\ exists st' : Session,
       initialize (VObject [("body", VObject [("authToken", str "t")])]) freshSession
       = Normal st'
       /\ authToken st' = str "t" /\ sandboxKey st' = VUndefined
       /\ useBody st' = VBool true.
Proof.
  split; [reflexivity|].
  destruct (C7_initialize_populates_session
              [("body", VObject [("authToken", str "t")])] freshSession)
    as (st' & Hrun & Hfields & _ & _ & Hbody & _ & _).
  exists st'. split; [exact Hrun|].
  injection Hfields as Ha Hs _ _ _ _.
  destruct (Hbody eq_refl) as [_ Hu].
  repeat split; assumption.
Defined.

(** C9. [initialize] leaves [useBody] as it was or sets it to [true].  For
    an event object without a (truthy) [body] it returns normally with
    [useBody] unchanged, while the six session fields are assigned from the
    event.  So after an event with a body, a second call with a top-level
    event keeps [useBody] at [true], and the formatter keeps wrapping. *)
Theorem C9_initialize_never_clears_useBody :
  (forall (event : JSValue) (st st' : Session),
      initialize event st = Normal st' ->
      useBody st' = useBody st \/ useBody st' = VBool true)
  /\ (forall (fields : list (string * JSValue)) (st : Session),
         truthy (descend (VObject fields) "body") = false ->
         exists st' : Session,
           initialize (VObject fields) st = Normal st'
           /\ useBody st' = useBody st
           /\ sessionFields st'
              = map (fun name => (name, descend (VObject fields) name)) sessionFieldNames)
  /\ (forall (wrapped plain : list (string * JSValue)) (st : Session),
         truthy (descend (VObject wrapped) "body") = true ->
         truthy (descend (VObject plain) "body") = false ->
         exists st1 st2 : Session,
           initialize (VObject wrapped) st = Normal st1
           /\ initialize (VObject plain) st1 = Normal st2
           /\ useBody st2 = VBool true
           /\ authToken st2 = descend (VObject plain) "authToken"
           /\ forall x : JSValue,
                prepareSuccessResponse st2 x
                = VObject [("statusCode", num 200); ("body", JSON_stringify x)]).
Proof.
  split; [exact initialize_useBody|]. split.
  - intros fields st H. eexists. split; [apply initialize_object|].
    unfold fieldSource. rewrite H. split; reflexivity.
  - intros wrapped plain st Hw Hp. eexists. eexists.
    split; [apply initialize_object|]. split; [apply initialize_object|].
    unfold fieldSource. rewrite Hw, Hp. repeat split.
Qed.

Lemma C9_witness :
  truthy (descend (VObject [("authToken", str "t")]) "body") = false
  /\ exists st' : Session,
       initialize (VObject [("authToken", str "t")])
         (setUseBody (VBool true) freshSession) = Normal st'
       /\ useBody st' = VBool true.
Proof.
  split; [reflexivity|].
  destruct (proj1 (proj2 C9_initialize_never_clears_useBody)
              [("authToken", str "t")] (setUseBody (VBool true) freshSession) eq_refl)
    as (st' & Hrun & Hu & _).
  exists st'. split; assumption.
Defined.

(** ** Data access *)

(** C8. With string session fields, [saveRelatedObject] sends exactly one
    request: a POST to
    [{serviceAddress}/schema/sandboxes/{sandboxKey}/{parentElementId}/{parentKey}/{elementId}],
    followed by [?bypassValidation=true] exactly when [opts.bypassValidation]
    is [true], with [objectToSave] as data and the header
    [Authorization: Bearer {authToken}]; it resolves to the [data] of the
    response, and rejects with the error of the request when that fails. *)
Theorem C8_saveRelatedObject_one_post
  (network : AxiosRequest -> Completion AxiosResponse) (st : Session)
  (service sandbox token parentElementId parentKey elementId : string)
  (objectToSave : JSValue) (opts : option SaveOptions) :
  serviceAddress st = VString service ->
  sandboxKey st = VString sandbox ->
  authToken st = VString token ->
  let base := relatedObjectUrl service sandbox parentElementId parentKey elementId in
  let outcome :=
    run network (saveRelatedObject st parentElementId parentKey elementId objectToSave opts) in
  exists request : AxiosRequest,
    requestsOf (fst outcome) = [request]
    /\ method request = "POST"
    /\ (opts = Some {| bypassValidation := Some true |} ->
          url request = base ++ "?bypassValidation=true")
    /\ (opts <> Some {| bypassValidation := Some true |} -> url request = base)
    /\ data request = objectToSave
    /\ headers request = [("Authorization", "Bearer " ++ token)]
    /\ snd outcome = (response ← network request; Normal (responseData response)).
Proof.
  intros Hservice Hsandbox Htoken base outcome.
  subst outcome. unfold saveRelatedObject.
  rewrite Hservice, Hsandbox, Htoken. simpl toString.
  fold (relatedObjectUrl service sandbox parentElementId parentKey elementId). fold base.
  set (request := {| method := "POST";
                     url := if bypassRequested opts
                            then base ++ "?bypassValidation=true" else base;
                     data := objectToSave;
                     headers := [("Authorization", "Bearer " ++ token)] |}).
  exists request. simpl run.
  split; [|split; [reflexivity|split; [|split; [|split; [reflexivity|split; [reflexivity|]]]]]].
  - destruct (network request); reflexivity.
  - intros ->. reflexivity.
  - intros Hopts. destruct opts as [[[[|]|]]|]; try reflexivity. now contradiction Hopts.
  - destruct (network request); reflexivity.
Qed.

Lemma C8_witness :
  let st := {| authToken := str "tok"; sandboxKey := str "sb";
               serviceAddress := str "https://svc"; actionSubject := VUndefined;
               userContext := VUndefined; params := VUndefined; useBody := VUndefined |} in
  let network := fun r : AxiosRequest => Normal {| status := 200; responseData := data r |} in
  serviceAddress st = VString "https://svc"
  /\ sandboxKey st = VString "sb"
  /\ authToken st = VString "tok"
  /\ exists request : AxiosRequest,
       requestsOf (fst (run network
          (saveRelatedObject st "customer" "17" "purchase" (VObject [("total", num 3)])
             (Some {| bypassValidation := Some true |})))) = [request]
       /\ url request
          = "https://svc/schema/sandboxes/sb/customer/17/purchase?bypassValidation=true".
Proof.
  intros st network. repeat (split; [reflexivity|]).
  destruct (C8_saveRelatedObject_one_post network st "https://svc" "sb" "tok"
              "customer" "17" "purchase" (VObject [("total", num 3)])
              (Some {| bypassValidation := Some true |}) eq_refl eq_refl eq_refl)
    as (request & Hreq & _ & Hurl & _).
  exists request. split; [exact Hreq|]. now rewrite Hurl.
Defined.

(** ** Sort *)

Lemma StronglySorted_lookup {A} (R : A -> A -> Prop) (l : list A) :
  StronglySorted R l ->
  forall (i j : nat) (x y : A),
    (i < j)%nat -> l !! i = Some x -> l !! j = Some y -> R x y.
Proof.
  induction 1 as [|a l Hsorted IH Hall]; intros i j x y Hij Hi Hj.
  - discriminate.
  - destruct j as [|j]; [lia|]. simpl in Hj.
    destruct i as [|i]; simpl in Hi.
    + injection Hi as <-. rewrite Forall_forall in Hall.
      apply Hall. eapply list_elem_of_lookup_2. exact Hj.
    + apply (IH i j); [lia|assumption|assumption].
Qed.

Lemma insertSorted_perm (comparefn : JSValue -> JSValue -> Completion Z) (x : JSValue)
  (l l' : list JSValue) :
  insertSorted comparefn x l = Normal l' -> l' ≡ₚ x :: l.
Proof.
  revert l'. induction l as [|y rest IH]; simpl; intros l'.
  - now intros [= <-].
  - destruct (sortCompare comparefn x y) as [c|e]; [|discriminate]. simpl.
    destruct (c <=? 0); [now intros [= <-]|].
    destruct (insertSorted comparefn x rest) as [rest'|e]; [|discriminate]. simpl.
    intros [= <-]. rewrite (IH rest' eq_refl). apply perm_swap.
Qed.

Lemma arraySort_perm (comparefn : JSValue -> JSValue -> Completion Z) (l l' : list JSValue) :
  arraySort comparefn l = Normal l' -> l' ≡ₚ l.
Proof.
  revert l'. induction l as [|x rest IH]; simpl; intros l'.
  - now intros [= <-].
  - destruct (arraySort comparefn rest) as [sorted|e]; [|discriminate]. simpl.
    intros H. apply insertSorted_perm in H. rewrite H. constructor. now apply IH.
Qed.

(** *** Consistent comparators *)

Lemma sortCompare_defined (comparefn : JSValue -> JSValue -> Completion Z) (x y : JSValue) :
  isUndefined x = false -> isUndefined y = false ->
  sortCompare comparefn x y = comparefn x y.
Proof. destruct x; try discriminate; destruct y; try discriminate; reflexivity. Qed.

Lemma sortCompare_undefined_first (comparefn : JSValue -> JSValue -> Completion Z)
  (y : JSValue) :
  isUndefined y = false -> sortCompare comparefn VUndefined y = Normal 1.
Proof. destruct y; try discriminate; reflexivity. Qed.

Lemma sortCompare_undefined_second (comparefn : JSValue -> JSValue -> Completion Z)
  (x : JSValue) :
  isUndefined x = false -> sortCompare comparefn x VUndefined = Normal (-1).
Proof. destruct x; try discriminate; reflexivity. Qed.

Lemma isUndefined_true (v : JSValue) : isUndefined v = true -> v = VUndefined.
Proof. destruct v; try discriminate; reflexivity. Qed.

(** Splits on whether [v] is [undefined], and puts SortCompare in the form
    it has in each case. *)
Ltac undefined_or_not v :=
  let H := fresh "Hdefined" in
  destruct (isUndefined v) eqn:H;
  [apply isUndefined_true in H; subst v|].

Ltac sortCompare_cases :=
  repeat match goal with
  | H : context [sortCompare _ VUndefined VUndefined] |- _ =>
      change (sortCompare _ VUndefined VUndefined) with (@Normal Z 0) in H
  | |- context [sortCompare ?f VUndefined VUndefined] =>
      change (sortCompare f VUndefined VUndefined) with (@Normal Z 0)
  | H : context [sortCompare ?f VUndefined ?y] |- _ =>
      rewrite (sortCompare_undefined_first f y) in H by assumption
  | |- context [sortCompare ?f VUndefined ?y] =>
      rewrite (sortCompare_undefined_first f y) by assumption
  | H : context [sortCompare ?f ?x VUndefined] |- _ =>
      rewrite (sortCompare_undefined_second f x) in H by assumption
  | |- context [sortCompare ?f ?x VUndefined] =>
      rewrite (sortCompare_undefined_second f x) by assumption
  | H : context [sortCompare ?f ?x ?y] |- _ =>
      rewrite (sortCompare_defined f x y) in H by assumption
  | |- context [sortCompare ?f ?x ?y] =>
      rewrite (sortCompare_defined f x y) by assumption
  end.

(** Closes a goal on [<CF], [=CF] and [>CF] whose hypotheses or conclusion
    are about results that are numerals. *)
Ltac numeral_results :=
  unfold ltCF, eqCF, gtCF in *;
  repeat match goal with
  | H : exists v : Z, _ |- _ => destruct H as (? & ? & ?)
  | H : Normal ?v = Normal ?w |- _ =>
      let E := fresh "E" in assert (E : v = w) by congruence; clear H
  end;
  try discriminate; try lia;
  try (eexists; split; [reflexivity | lia]); try reflexivity.

(** SortCompare, which sets [undefined] elements apart before it asks the
    comparator, is consistent when the comparator is. *)
Lemma consistentOn_sortCompare (comparefn : JSValue -> JSValue -> Completion Z)
  (elems : list JSValue) :
  consistentOn comparefn elems -> consistentOn (sortCompare comparefn) elems.
Proof.
  intros (Hanswer & Hrefl & Hsym & Heq & Hlt & Hgt).
  split; [|split; [|split; [|split; [|split]]]].
  - intros a b Ha Hb. undefined_or_not a; undefined_or_not b; sortCompare_cases;
      eauto.
  - intros a Ha. unfold eqCF. undefined_or_not a; sortCompare_cases;
      [reflexivity | now apply Hrefl].
  - intros a b Ha Hb. unfold eqCF.
    undefined_or_not a; undefined_or_not b; sortCompare_cases;
      try discriminate; try reflexivity. now apply Hsym.
  - intros a b c Ha Hb Hc. unfold eqCF.
    undefined_or_not a; undefined_or_not b; undefined_or_not c; sortCompare_cases;
      try discriminate; try reflexivity. now apply Heq.
  - intros a b c Ha Hb Hc.
    undefined_or_not a; undefined_or_not b; undefined_or_not c;
      unfold ltCF; sortCompare_cases; intros Hab Hbc;
      first [exact (Hlt a b c Ha Hb Hc Hab Hbc) | numeral_results].
  - intros a b c Ha Hb Hc.
    undefined_or_not a; undefined_or_not b; undefined_or_not c;
      unfold gtCF; sortCompare_cases; intros Hab Hbc;
      first [exact (Hgt a b c Ha Hb Hc Hab Hbc) | numeral_results].
Qed.

Section ConsistentComparison.
Variable f : JSValue -> JSValue -> Completion Z.
Variable elems : list JSValue.
Hypothesis consistent : consistentOn f elems.

Lemma trichotomy (a b : JSValue) :
  a ∈ elems -> b ∈ elems -> ltCF f a b \/ eqCF f a b \/ gtCF f a b.
Proof.
  intros Ha Hb. destruct consistent as (Hanswer & _).
  destruct (Hanswer a b Ha Hb) as [v Hv].
  destruct (Z.lt_trichotomy v 0) as [H|[H|H]].
  - left. now exists v.
  - right. left. subst v. exact Hv.
  - right. right. now exists v.
Qed.

Lemma ltCF_not_eqCF (a b : JSValue) : ltCF f a b -> eqCF f a b -> False.
Proof. intros (v & Hv & Hlt) He. unfold eqCF in He. assert (v = 0) by congruence. lia. Qed.

Lemma gtCF_not_eqCF (a b : JSValue) : gtCF f a b -> eqCF f a b -> False.
Proof. intros (v & Hv & Hlt) He. unfold eqCF in He. assert (v = 0) by congruence. lia. Qed.

Lemma ltCF_not_gtCF (a b : JSValue) : ltCF f a b -> gtCF f a b -> False.
Proof. intros (v & Hv & Hlt) (w & Hw & Hgt). assert (v = w) by congruence. lia. Qed.

(** What ECMA-262 notes of a consistent comparator: the two orders of a pair
    agree. *)
Lemma gtCF_swap (a b : JSValue) : a ∈ elems -> b ∈ elems -> gtCF f a b -> ltCF f b a.
Proof.
  intros Ha Hb Hab. destruct consistent as (_ & Hrefl & Hsym & _ & _ & Hgt).
  destruct (trichotomy b a Hb Ha) as [H|[H|H]]; [exact H| |].
  - exfalso. apply (gtCF_not_eqCF a b Hab). now apply Hsym.
  - exfalso. apply (gtCF_not_eqCF a a); [|now apply Hrefl].
    now apply (Hgt a b a).
Qed.

Lemma ltCF_swap (a b : JSValue) : a ∈ elems -> b ∈ elems -> ltCF f a b -> gtCF f b a.
Proof.
  intros Ha Hb Hab. destruct consistent as (_ & Hrefl & Hsym & _ & Hlt & _).
  destruct (trichotomy b a Hb Ha) as [H|[H|H]]; [| |exact H].
  - exfalso. apply (ltCF_not_eqCF a a); [|now apply Hrefl].
    now apply (Hlt a b a).
  - exfalso. apply (ltCF_not_eqCF a b Hab). now apply Hsym.
Qed.

Lemma leCF_trans (a b c : JSValue) :
  a ∈ elems -> b ∈ elems -> c ∈ elems ->
  ltCF f a b \/ eqCF f a b -> ltCF f b c \/ eqCF f b c -> ltCF f a c \/ eqCF f a c.
Proof.
  intros Ha Hb Hc Hab Hbc.
  destruct consistent as (_ & Hrefl & Hsym & Heq & Hlt & _).
  destruct Hab as [Hab|Hab], Hbc as [Hbc|Hbc].
  - left. now apply (Hlt a b c).
  - destruct (trichotomy a c Ha Hc) as [H|[H|H]]; [now left | |]; exfalso.
    + apply (ltCF_not_eqCF a b Hab). apply (Heq a c b); auto.
    + apply (ltCF_not_eqCF c b); [|now apply Hsym].
      apply (Hlt c a b); auto. now apply gtCF_swap.
  - destruct (trichotomy a c Ha Hc) as [H|[H|H]]; [now left | |]; exfalso.
    + apply (ltCF_not_eqCF b c Hbc). apply (Heq b a c); auto.
    + apply (ltCF_not_eqCF b a); [|now apply Hsym].
      apply (Hlt b c a); auto. now apply gtCF_swap.
  - right. now apply (Heq a b c).
Qed.

End ConsistentComparison.

Lemma mayPrecede_iff (comparefn : JSValue -> JSValue -> Completion Z) (x y : JSValue) :
  mayPrecede comparefn x y
  <-> ltCF (sortCompare comparefn) x y \/ eqCF (sortCompare comparefn) x y.
Proof.
  unfold mayPrecede, ltCF, eqCF. split.
  - intros (c & Hc & Hle). destruct (Z.eq_dec c 0) as [->|Hne]; [now right|].
    left. exists c. split; [assumption | lia].
  - intros [(c & Hc & Hlt)|Hc]; [exists c | exists 0]; split; (assumption || lia).
Qed.

(** A comparator that agrees with the order of a rank is consistent. *)
Lemma consistentOn_by_rank (comparefn : JSValue -> JSValue -> Completion Z)
  (rank : JSValue -> Z) (elems : list JSValue) :
  (forall a b, a ∈ elems -> b ∈ elems ->
     exists v : Z, comparefn a b = Normal v /\ (v ?= 0) = (rank a ?= rank b)) ->
  consistentOn comparefn elems.
Proof.
  intros H.
  assert (Hlt : forall a b, a ∈ elems -> b ∈ elems ->
            (ltCF comparefn a b <-> rank a < rank b)).
  { intros a b Ha Hb. destruct (H a b Ha Hb) as (v & Hv & Hs). unfold ltCF. split.
    - intros (w & Hw & Hneg). assert (w = v) by congruence. subst w.
      destruct (Z.compare_spec v 0), (Z.compare_spec (rank a) (rank b));
        try discriminate; lia.
    - intros Hr. exists v. split; [assumption|].
      destruct (Z.compare_spec v 0), (Z.compare_spec (rank a) (rank b));
        try discriminate; lia. }
  assert (Hgt : forall a b, a ∈ elems -> b ∈ elems ->
            (gtCF comparefn a b <-> rank b < rank a)).
  { intros a b Ha Hb. destruct (H a b Ha Hb) as (v & Hv & Hs). unfold gtCF. split.
    - intros (w & Hw & Hpos). assert (w = v) by congruence. subst w.
      destruct (Z.compare_spec v 0), (Z.compare_spec (rank a) (rank b));
        try discriminate; lia.
    - intros Hr. exists v. split; [assumption|].
      destruct (Z.compare_spec v 0), (Z.compare_spec (rank a) (rank b));
        try discriminate; lia. }
  assert (Heq : forall a b, a ∈ elems -> b ∈ elems ->
            (eqCF comparefn a b <-> rank a = rank b)).
  { intros a b Ha Hb. destruct (H a b Ha Hb) as (v & Hv & Hs). unfold eqCF. split.
    - intros Hw. assert (v = 0) by congruence. subst v.
      destruct (Z.compare_spec (rank a) (rank b)); try discriminate; lia.
    - intros Hr. rewrite Hv. f_equal.
      destruct (Z.compare_spec v 0), (Z.compare_spec (rank a) (rank b));
        try discriminate; lia. }
  split; [|split; [|split; [|split; [|split]]]].
  - intros a b Ha Hb. destruct (H a b Ha Hb) as (v & Hv & _). now exists v.
  - intros a Ha. now apply Heq.
  - intros a b Ha Hb Hab. apply Heq; auto. apply Heq in Hab; auto.
  - intros a b c Ha Hb Hc Hab Hbc. apply Heq; auto.
    apply Heq in Hab; auto. apply Heq in Hbc; auto. congruence.
  - intros a b c Ha Hb Hc Hab Hbc. apply Hlt; auto.
    apply Hlt in Hab; auto. apply Hlt in Hbc; auto. lia.
  - intros a b c Ha Hb Hc Hab Hbc. apply Hgt; auto.
    apply Hgt in Hab; auto. apply Hgt in Hbc; auto. lia.
Qed.

Section InsertionSort.
Variable comparefn : JSValue -> JSValue -> Completion Z.
Variable elems : list JSValue.
Hypothesis consistent : consistentOn comparefn elems.

Lemma sortCompare_answers (x y : JSValue) :
  x ∈ elems -> y ∈ elems ->
  exists c : Z, sortCompare comparefn x y = Normal c
                /\ (0 < c -> mayPrecede comparefn y x).
Proof.
  intros Hx Hy. pose proof (consistentOn_sortCompare _ _ consistent) as Hsc.
  destruct (proj1 Hsc x y Hx Hy) as [c Hc]. exists c. split; [assumption|].
  intros Hpos. apply mayPrecede_iff. left.
  apply (gtCF_swap _ _ Hsc x y Hx Hy). now exists c.
Qed.

Lemma mayPrecede_trans (x y z : JSValue) :
  x ∈ elems -> y ∈ elems -> z ∈ elems ->
  mayPrecede comparefn x y -> mayPrecede comparefn y z -> mayPrecede comparefn x z.
Proof.
  intros Hx Hy Hz Hxy Hyz. pose proof (consistentOn_sortCompare _ _ consistent) as Hsc.
  apply mayPrecede_iff. apply mayPrecede_iff in Hxy, Hyz.
  now apply (leCF_trans _ _ Hsc x y z).
Qed.

Lemma insertSorted_sorted (x : JSValue) (l : list JSValue) :
  x ∈ elems -> Forall (fun v => v ∈ elems) l ->
  StronglySorted (mayPrecede comparefn) l ->
  exists l' : list JSValue,
    insertSorted comparefn x l = Normal l'
    /\ l' ≡ₚ x :: l
    /\ StronglySorted (mayPrecede comparefn) l'.
Proof.
  pose proof sortCompare_answers as Htotal. pose proof mayPrecede_trans as Htrans.
  intros Hx Hl Hsorted. induction l as [|y rest IH]; simpl.
  - exists [x]. repeat split; [reflexivity|]. repeat constructor.
  - apply Forall_cons in Hl as [Hy Hrest].
    apply StronglySorted_inv in Hsorted as [Hsorted Hy_first].
    destruct (Htotal x y Hx Hy) as (c & Hc & Hback).
    rewrite Hc. simpl. destruct (c <=? 0) eqn:Hle.
    + apply Z.leb_le in Hle. eexists. repeat split; [reflexivity|].
      assert (Hxy : mayPrecede comparefn x y) by (exists c; split; assumption).
      constructor; [constructor; assumption|].
      constructor; [assumption|].
      rewrite Forall_forall in Hy_first, Hrest. rewrite Forall_forall.
      intros z Hz. apply (Htrans x y z); auto.
    + apply Z.leb_gt in Hle.
      destruct (IH Hrest Hsorted) as (l' & Hins & Hperm & Hsorted').
      rewrite Hins. simpl. exists (y :: l'). repeat split.
      * rewrite Hperm. apply perm_swap.
      * constructor; [assumption|].
        rewrite Hperm. constructor; [now apply Hback | assumption].
Qed.

Lemma arraySort_sorted (l : list JSValue) :
  Forall (fun v => v ∈ elems) l ->
  exists l' : list JSValue,
    arraySort comparefn l = Normal l'
    /\ l' ≡ₚ l
    /\ StronglySorted (mayPrecede comparefn) l'.
Proof.
  induction l as [|x rest IH]; intros Hl; simpl.
  - exists []. repeat split; [reflexivity|constructor].
  - apply Forall_cons in Hl as [Hx Hrest].
    destruct (IH Hrest) as (sorted & Hsort & Hperm & Hsorted).
    rewrite Hsort. simpl.
    assert (Hin : Forall (fun v => v ∈ elems) sorted) by now rewrite Hperm.
    destruct (insertSorted_sorted x sorted Hx Hin Hsorted) as (l' & Hins & Hperm' & Hsorted').
    exists l'. repeat split; [assumption| |assumption].
    rewrite Hperm'. now constructor.
Qed.

End InsertionSort.

Section SortObjectArray.
Context {host : Host}.



End SortObjectArray.

(** Case analysis on a member of a two-element list. *)
Ltac one_of_two H :=
  apply elem_of_cons in H as [->|H]; [|apply list_elem_of_singleton in H as ->].

(** The two rows of the example of [sortObjectArray] tie on [a] and are
    ordered by [b]: the comparator by [a] then [b] is consistent on them. *)
Lemma example_rows_consistent :
  consistentOn
    (@sortComparator exampleHost
       [ {| attributeId := "a"; descending := None; caseInsensitive := None;
            autoSequence := None |};
         {| attributeId := "b"; descending := None; caseInsensitive := None;
            autoSequence := None |} ])
    [VObject [("a", num 1); ("b", num 2)]; VObject [("a", num 1); ("b", num 1)]].
Proof.
  apply (consistentOn_by_rank _
           (fun v => match descend v "b" with VNumber (Int z) => z | _ => 0 end)).
  intros a b Ha Hb. one_of_two Ha; one_of_two Hb;
    eexists; split; reflexivity.
Qed.


(** ** JSON texts read back *)

Lemma append_cons (c : ascii) (s t : string) : String c s ++ t = String c (s ++ t).
Proof. reflexivity. Qed.

Lemma bracket_append (opening closing : ascii) (inner rest : string) :
  (String opening "" ++ inner ++ String closing "") ++ rest
  = String opening (inner ++ String closing rest).
Proof.
  simpl. f_equal. induction inner as [|a inner IH]; simpl; [reflexivity | now rewrite IH].
Qed.

Lemma append_assoc (s t u : string) : (s ++ t) ++ u = s ++ (t ++ u).
Proof. induction s as [|a s IH]; simpl; [reflexivity | now rewrite IH]. Qed.

Lemma parseStringBody_quoteUnit (c : ascii) (tail : string) :
  parseStringBody (quoteUnit c ++ tail) = prepend c (parseStringBody tail).
Proof. destruct c as [[|] [|] [|] [|] [|] [|] [|] [|]]; reflexivity. Qed.

Lemma parseStringBody_quoteUnits (s rest : string) :
  parseStringBody (quoteUnits s ++ String dquote rest) = Some (s, rest).
Proof.
  induction s as [|c s IH]; simpl; [reflexivity|].
  rewrite append_assoc, parseStringBody_quoteUnit, IH. reflexivity.
Qed.

Lemma quoteJSONString_append (s rest : string) :
  quoteJSONString s ++ rest = String dquote (quoteUnits s ++ String dquote rest).
Proof. unfold quoteJSONString. simpl. now rewrite append_assoc. Qed.

(** *** Numbers *)

Lemma spanDigits_digits (d : Decimal.uint) (rest : string) :
  delimited rest = true ->
  spanDigits (NilEmpty.string_of_uint d ++ rest) = (NilEmpty.string_of_uint d, rest).
Proof.
  intros Hrest. induction d; simpl; try (rewrite IHd; reflexivity).
  destruct rest as [|c rest]; [reflexivity|].
  simpl in Hrest. simpl.
  destruct (isDigit c) eqn:Hd; [|reflexivity].
  destruct c as [[|] [|] [|] [|] [|] [|] [|] [|]]; discriminate.
Qed.

Lemma delimited_not_fraction (rest : string) :
  delimited rest = true -> startsFraction rest = false.
Proof.
  destruct rest as [|c rest]; [reflexivity|]. simpl.
  destruct c as [[|] [|] [|] [|] [|] [|] [|] [|]]; try reflexivity; discriminate.
Qed.

Lemma to_uint_normal (p : positive) : Decimal.unorm (Pos.to_uint p) = Pos.to_uint p.
Proof.
  rewrite <- (DecimalPos.Unsigned.to_of (Pos.to_uint p)).
  now rewrite DecimalPos.Unsigned.of_to.
Qed.

Lemma to_uint_no_leading_zero (p : positive) (d : Decimal.uint) :
  Pos.to_uint p <> Decimal.D0 d.
Proof.
  intros H. pose proof (to_uint_normal p) as Hn. rewrite H in Hn.
  rewrite unorm_D0 in Hn. unfold Decimal.unorm in Hn.
  destruct (Decimal.nzhead d) eqn:Hd; try (apply (nzhead_nonzero d d); congruence).
  injection Hn as <-.
  now apply (DecimalPos.Unsigned.to_uint_nonzero p).
Qed.

Lemma parseNumber_positive (p : positive) (rest : string) :
  Z.pos p <= maxSafeInteger ->
  delimited rest = true ->
  parseNumber (NilEmpty.string_of_uint (Pos.to_uint p) ++ rest)
  = Some (VNumber (Int (Zpos p)), rest)
  /\ parseNumber (String "-" (NilEmpty.string_of_uint (Pos.to_uint p) ++ rest))
     = Some (VNumber (Int (Zneg p)), rest).
Proof.
  intros Hsafe Hrest.
  pose proof (DecimalPos.Unsigned.to_uint_nonnil p) as Hnil.
  pose proof (to_uint_no_leading_zero p) as Hzero.
  assert (Hvalue : Z.of_uint (Pos.to_uint p) = Z.pos p).
  { unfold Z.of_uint. now rewrite (DecimalPos.Unsigned.of_to p). }
  assert (Hparse : NilZero.uint_of_string (NilEmpty.string_of_uint (Pos.to_uint p))
                   = Some (Pos.to_uint p)).
  { rewrite <- (NilZero.usu (Pos.to_uint p) Hnil).
    destruct (Pos.to_uint p); try reflexivity. now contradiction Hnil. }
  assert (Hlead : leadingZero (NilEmpty.string_of_uint (Pos.to_uint p)) = false).
  { destruct (Pos.to_uint p) as [|d|d|d|d|d|d|d|d|d|d] eqn:E; try reflexivity;
      try (destruct d; reflexivity).
    now contradiction (Hzero d). }
  assert (Hminus : forall t, parseNumber (NilEmpty.string_of_uint (Pos.to_uint p) ++ t)
                   = let '(ds, rest) :=
                       spanDigits (NilEmpty.string_of_uint (Pos.to_uint p) ++ t) in
                     if leadingZero ds || startsFraction rest then None
                     else d ← NilZero.uint_of_string ds;
                          if Z.of_uint d <=? maxSafeInteger
                          then Some (VNumber (Int (Z.of_uint d)), rest) else None).
  { intros t. unfold parseNumber.
    destruct (Pos.to_uint p) as [|d|d|d|d|d|d|d|d|d|d]; try reflexivity.
    now contradiction Hnil. }
  apply Z.leb_le in Hsafe.
  split.
  - rewrite Hminus, spanDigits_digits by assumption.
    rewrite Hlead, delimited_not_fraction by assumption. simpl orb. cbv iota.
    rewrite Hparse. cbn [mbind option_bind]. now rewrite Hvalue, Hsafe.
  - unfold parseNumber. cbn [Ascii.eqb Bool.eqb]. cbv iota.
    rewrite spanDigits_digits by assumption.
    rewrite Hlead, delimited_not_fraction by assumption. simpl orb. cbv iota.
    rewrite Hparse. cbn [mbind option_bind]. rewrite Hvalue, Hsafe. reflexivity.
Qed.

Lemma parseNumber_numberToString (z : Z) (rest : string) :
  Z.abs z <= maxSafeInteger ->
  delimited rest = true ->
  parseNumber (numberToString (Int z) ++ rest) = Some (VNumber (Int z), rest).
Proof.
  intros Hsafe Hrest. destruct z as [|p|p]; simpl.
  - unfold parseNumber. simpl.
    destruct rest as [|c rest]; [reflexivity|]. simpl in Hrest.
    destruct c as [[|] [|] [|] [|] [|] [|] [|] [|]]; try discriminate; reflexivity.
  - pose proof (DecimalPos.Unsigned.to_uint_nonnil p) as Hnil.
    replace (NilZero.string_of_uint (Pos.to_uint p))
      with (NilEmpty.string_of_uint (Pos.to_uint p))
      by (destruct (Pos.to_uint p); try reflexivity; now contradiction Hnil).
    now apply parseNumber_positive.
  - pose proof (DecimalPos.Unsigned.to_uint_nonnil p) as Hnil.
    replace (NilZero.string_of_uint (Pos.to_uint p))
      with (NilEmpty.string_of_uint (Pos.to_uint p))
      by (destruct (Pos.to_uint p); try reflexivity; now contradiction Hnil).
    now apply parseNumber_positive.
Qed.

(** *** Induction on values, and the equations of the nested definitions *)

Lemma JSValue_ind (P : JSValue -> Prop) :
  P VUndefined -> P VNull -> (forall b, P (VBool b)) -> (forall n, P (VNumber n)) ->
  (forall s, P (VString s)) ->
  (forall elems, Forall P elems -> P (VArray elems)) ->
  (forall fields, Forall (fun kv => P kv.2) fields -> P (VObject fields)) ->
  forall v, P v.
Proof.
  intros Hu Hn Hb Hnum Hs Ha Ho.
  fix IH 1. intros [| |b|n|s|elems|fields].
  - exact Hu.
  - exact Hn.
  - apply Hb.
  - apply Hnum.
  - apply Hs.
  - apply Ha. induction elems as [|e rest IHrest]; constructor; [apply IH | exact IHrest].
  - apply Ho. induction fields as [|[k e] rest IHrest]; constructor;
      [apply IH | exact IHrest].
Qed.

Lemma serializeJSON_array (elems : list JSValue) :
  serializeJSON (VArray elems)
  = Some ("[" ++ joinWith "," (map (fun e => default "null" (serializeJSON e)) elems) ++ "]").
Proof. reflexivity. Qed.

Lemma serializeJSON_object (fields : list (string * JSValue)) :
  serializeJSON (VObject fields)
  = Some ("{" ++ joinWith ","
       (omap (fun kv => (fun text => quoteJSONString kv.1 ++ ":" ++ text)
                          <$> serializeJSON kv.2) fields) ++ "}").
Proof.
  simpl. do 3 f_equal. f_equal. induction fields as [|[k e] rest IH]; [reflexivity|].
  simpl. rewrite IH. destruct (serializeJSON e); reflexivity.
Qed.

Lemma jsonData_array (elems : list JSValue) :
  jsonData (VArray elems) = forallb jsonData elems.
Proof. simpl. induction elems as [|e rest IH]; [reflexivity|]. simpl. now rewrite IH. Qed.

Lemma jsonData_object (fields : list (string * JSValue)) :
  jsonData (VObject fields)
  = distinctKeys fields && forallb (fun kv => jsonData kv.2) fields.
Proof.
  simpl. f_equal. induction fields as [|[k e] rest IH]; [reflexivity|].
  simpl. now rewrite IH.
Qed.

Lemma size_array (elems : list JSValue) :
  size (VArray elems) = S (list_sum (map (fun e => S (size e)) elems)).
Proof. simpl. f_equal. induction elems as [|e rest IH]; [reflexivity|]. simpl. now rewrite IH. Qed.

Lemma size_object (fields : list (string * JSValue)) :
  size (VObject fields) = S (list_sum (map (fun kv => S (size kv.2)) fields)).
Proof.
  simpl. f_equal. induction fields as [|[k e] rest IH]; [reflexivity|].
  simpl. now rewrite IH.
Qed.

Lemma serializeJSON_jsonData (v : JSValue) :
  jsonData v = true -> exists text, serializeJSON v = Some text.
Proof. destruct v as [| |[|]|[]| | |]; try discriminate; intros _; eexists; reflexivity. Qed.

(** The text of a value starts with a character that is neither white space
    nor a closing bracket. *)
Lemma serializeJSON_head (v : JSValue) (text : string) :
  serializeJSON v = Some text ->
  exists c t, text = String c t /\ isWhitespace c = false /\ Ascii.eqb c "]" = false.
Proof.
  destruct v as [| |[|]|n|s|elems|fields]; try discriminate;
    try (intros [= <-]; eexists; eexists; repeat split; reflexivity).
  - destruct n as [| | | |z]; try (intros [= <-]; eexists; eexists; repeat split; reflexivity).
    intros [= <-]. simpl.
    destruct z as [|p|p]; simpl;
      try (eexists; eexists; repeat split; reflexivity).
    pose proof (DecimalPos.Unsigned.to_uint_nonnil p) as Hnil.
    destruct (Pos.to_uint p); try (now contradiction Hnil);
      eexists; eexists; repeat split; reflexivity.
Qed.

(** *** Reading back what was written *)

#[local] Arguments quoteJSONString : simpl never.

Lemma parseValue_step (fuel : nat) (s : string) :
  parseValue (S fuel) s
  = match skipWs s with
    | EmptyString => None
    | String c r =>
        if Ascii.eqb c "n" then rest ← stripPrefix "ull" r; Some (VNull, rest)
        else if Ascii.eqb c "t" then rest ← stripPrefix "rue" r; Some (VBool true, rest)
        else if Ascii.eqb c "f" then rest ← stripPrefix "alse" r; Some (VBool false, rest)
        else if Ascii.eqb c dquote then
          '(t, rest) ← parseStringBody r; Some (VString t, rest)
        else if Ascii.eqb c "[" then
          match skipWs r with
          | String c' r' =>
              if Ascii.eqb c' "]" then Some (VArray [], r')
              else '(l, rest) ← parseElements fuel r; Some (VArray l, rest)
          | EmptyString => None
          end
        else if Ascii.eqb c "{" then
          match skipWs r with
          | String c' r' =>
              if Ascii.eqb c' "}" then Some (VObject [], r')
              else '(l, rest) ← parseMembers fuel r; Some (objectOf l, rest)
          | EmptyString => None
          end
        else parseNumber (String c r)
    end.
Proof. reflexivity. Qed.

Lemma parseElements_step (fuel : nat) (s : string) :
  parseElements (S fuel) s
  = '(v, rest) ← parseValue fuel s;
    match skipWs rest with
    | String c r =>
        if Ascii.eqb c "," then '(l, rest') ← parseElements fuel r; Some (v :: l, rest')
        else if Ascii.eqb c "]" then Some ([v], r)
        else None
    | EmptyString => None
    end.
Proof. reflexivity. Qed.

Lemma parseMembers_step (fuel : nat) (s : string) :
  parseMembers (S fuel) s
  = match skipWs s with
    | String q r0 =>
        if Ascii.eqb q dquote then
          '(k, rest0) ← parseStringBody r0;
          match skipWs rest0 with
          | String colon r1 =>
              if Ascii.eqb colon ":" then
                '(v, rest) ← parseValue fuel r1;
                match skipWs rest with
                | String c r =>
                    if Ascii.eqb c "," then
                      '(l, rest') ← parseMembers fuel r; Some ((k, v) :: l, rest')
                    else if Ascii.eqb c "}" then Some ([(k, v)], r)
                    else None
                | EmptyString => None
                end
              else None
          | EmptyString => None
          end
        else None
    | EmptyString => None
    end.
Proof. reflexivity. Qed.

Lemma joinWith_more (sep p : string) (rest : list string) :
  rest <> [] -> joinWith sep (p :: rest) = p ++ sep ++ joinWith sep rest.
Proof. destruct rest; [congruence | reflexivity]. Qed.

Lemma joinWith_single (sep p : string) : joinWith sep [p] = p.
Proof. reflexivity. Qed.

Lemma skipWs_head (c : ascii) (t : string) :
  isWhitespace c = false -> skipWs (String c t) = String c t.
Proof. intros H. simpl. now rewrite H. Qed.

Lemma parseElements_texts (l : list JSValue) :
  Forall (fun e => jsonData e = true -> forall text fuel rest,
            serializeJSON e = Some text -> (size e <= fuel)%nat ->
            delimited rest = true ->
            parseValue fuel (text ++ rest) = Some (e, rest)) l ->
  forallb jsonData l = true ->
  l <> [] ->
  forall (fuel : nat) (rest : string),
    (list_sum (map (fun e => S (size e)) l) <= fuel)%nat ->
    parseElements fuel
      (joinWith "," (map (fun e => default "null" (serializeJSON e)) l) ++ String "]" rest)
    = Some (l, rest).
Proof.
  induction 1 as [|e tail He _ IH]; intros Hdata Hne fuel rest Hfuel; [congruence|].
  simpl in Hdata. apply andb_true_iff in Hdata as [Hdata_e Hdata_tail].
  destruct (serializeJSON_jsonData e Hdata_e) as [text Htext].
  simpl in Hfuel. destruct fuel as [|fuel]; [lia|].
  rewrite parseElements_step.
  destruct tail as [|e2 tail].
  - simpl. rewrite Htext. simpl.
    rewrite (He Hdata_e text fuel (String "]" rest) Htext) by (reflexivity || lia).
    reflexivity.
  - change (map (fun e => default "null" (serializeJSON e)) (e :: e2 :: tail))
      with (default "null" (serializeJSON e)
              :: map (fun e => default "null" (serializeJSON e)) (e2 :: tail)).
    rewrite joinWith_more by discriminate. rewrite Htext. simpl default.
    rewrite !append_assoc.
    rewrite (He Hdata_e text fuel _ Htext) by (reflexivity || lia).
    simpl.
    rewrite (IH Hdata_tail) by (congruence || (simpl in *; lia)).
    reflexivity.
Qed.

Lemma memberTexts_cons (k : string) (e : JSValue) (text : string)
  (tail : list (string * JSValue)) :
  serializeJSON e = Some text ->
  omap (fun kv => (fun text => quoteJSONString kv.1 ++ ":" ++ text) <$> serializeJSON kv.2)
    ((k, e) :: tail)
  = (quoteJSONString k ++ ":" ++ text)
      :: omap (fun kv => (fun text => quoteJSONString kv.1 ++ ":" ++ text)
                           <$> serializeJSON kv.2) tail.
Proof. intros H. cbn [omap list_omap]. cbn [snd fst]. rewrite H. reflexivity. Qed.

Lemma parseMembers_texts (l : list (string * JSValue)) :
  Forall (fun kv => jsonData kv.2 = true -> forall text fuel rest,
            serializeJSON kv.2 = Some text -> (size kv.2 <= fuel)%nat ->
            delimited rest = true ->
            parseValue fuel (text ++ rest) = Some (kv.2, rest)) l ->
  forallb (fun kv => jsonData kv.2) l = true ->
  l <> [] ->
  forall (fuel : nat) (rest : string),
    (list_sum (map (fun kv => S (size kv.2)) l) <= fuel)%nat ->
    parseMembers fuel
      (joinWith ","
         (omap (fun kv => (fun text => quoteJSONString kv.1 ++ ":" ++ text)
                            <$> serializeJSON kv.2) l) ++ String "}" rest)
    = Some (l, rest).
Proof.
  induction 1 as [|[k e] tail He _ IH]; intros Hdata Hne fuel rest Hfuel; [congruence|].
  simpl in Hdata. apply andb_true_iff in Hdata as [Hdata_e Hdata_tail].
  destruct (serializeJSON_jsonData e Hdata_e) as [text Htext].
  simpl in He, Hfuel. destruct fuel as [|fuel]; [lia|].
  rewrite parseMembers_step, (memberTexts_cons k e text tail Htext).
  destruct tail as [|[k2 e2] tail].
  - change (omap _ []) with (@nil string).
    rewrite joinWith_single, !append_assoc, quoteJSONString_append.
    rewrite skipWs_head by reflexivity. rewrite Ascii.eqb_refl.
    rewrite parseStringBody_quoteUnits. simpl.
    rewrite (He Hdata_e text fuel (String "}" rest) Htext) by (reflexivity || lia).
    reflexivity.
  - apply andb_true_iff in Hdata_tail as Hsplit. destruct Hsplit as [Hdata_e2 _].
    destruct (serializeJSON_jsonData e2 Hdata_e2) as [text2 Htext2].
    rewrite joinWith_more
      by (rewrite (memberTexts_cons k2 e2 text2 tail Htext2); discriminate).
    rewrite !append_assoc, quoteJSONString_append.
    rewrite skipWs_head by reflexivity. rewrite Ascii.eqb_refl.
    rewrite parseStringBody_quoteUnits. simpl.
    rewrite (He Hdata_e text fuel _ Htext) by (reflexivity || lia).
    simpl.
    rewrite (IH Hdata_tail) by (congruence || (simpl in *; lia)).
    reflexivity.
Qed.

(** *** Objects with distinct keys *)

Lemma lookupField_app (k : string) (l m : list (string * JSValue)) :
  lookupField k (l ++ m)%list
  = match lookupField k l with
    | Some v => Some v
    | None => lookupField k m
    end.
Proof.
  induction l as [|[k' v'] l IH]; simpl; [reflexivity|].
  destruct (String.eqb k' k); [reflexivity | exact IH].
Qed.

Lemma defineField_new (k : string) (v : JSValue) (fields : list (string * JSValue)) :
  lookupField k fields = None -> defineField k v fields = (fields ++ [(k, v)])%list.
Proof.
  induction fields as [|[k' v'] rest IH]; simpl; [reflexivity|].
  destruct (String.eqb k' k); [discriminate|].
  intros H. now rewrite IH.
Qed.

Lemma distinctKeys_middle (acc : list (string * JSValue)) (k : string) (v : JSValue)
  (l : list (string * JSValue)) :
  distinctKeys (acc ++ (k, v) :: l)%list = true -> lookupField k acc = None.
Proof.
  induction acc as [|[k' v'] acc IH]; simpl; [reflexivity|].
  destruct (lookupField k' (acc ++ (k, v) :: l)%list) eqn:Hk'; [discriminate|].
  intros H. destruct (String.eqb k' k) eqn:E.
  - apply String.eqb_eq in E. subst k'.
    rewrite lookupField_app in Hk'. simpl in Hk'. rewrite String.eqb_refl in Hk'.
    destruct (lookupField k acc); discriminate.
  - now apply IH.
Qed.

Lemma defineFields_distinct (l acc : list (string * JSValue)) :
  distinctKeys (acc ++ l)%list = true ->
  fold_left (fun fields '(k, v) => defineField k v fields) l acc = (acc ++ l)%list.
Proof.
  revert acc. induction l as [|[k v] l IH]; intros acc H; simpl.
  - now rewrite app_nil_r.
  - rewrite defineField_new by (eapply distinctKeys_middle; exact H).
    rewrite IH; rewrite <- app_assoc; [reflexivity | exact H].
Qed.

Lemma objectOf_distinct (fields : list (string * JSValue)) :
  distinctKeys fields = true -> objectOf fields = VObject fields.
Proof. intros H. unfold objectOf. now rewrite defineFields_distinct. Qed.

Lemma parseValue_number_start (fuel : nat) (c : ascii) (t : string) :
  isDigit c || Ascii.eqb c "-" = true ->
  parseValue (S fuel) (String c t) = parseNumber (String c t).
Proof.
  destruct c as [[|] [|] [|] [|] [|] [|] [|] [|]]; try discriminate; reflexivity.
Qed.

Lemma numberToString_head (z : Z) :
  exists c t, numberToString (Int z) = String c t
              /\ isDigit c || Ascii.eqb c "-" = true.
Proof.
  destruct z as [|p|p]; simpl; try (eexists; eexists; split; reflexivity).
  pose proof (DecimalPos.Unsigned.to_uint_nonnil p) as Hnil.
  destruct (Pos.to_uint p); try (now contradiction Hnil);
    eexists; eexists; split; reflexivity.
Qed.

Lemma parseValue_number (fuel : nat) (z : Z) (rest : string) :
  Z.abs z <= maxSafeInteger ->
  delimited rest = true ->
  parseValue (S fuel) (numberToString (Int z) ++ rest) = Some (VNumber (Int z), rest).
Proof.
  intros Hsafe Hrest. rewrite <- (parseNumber_numberToString z rest Hsafe Hrest).
  destruct (numberToString_head z) as (c & t & -> & Hc).
  simpl. now apply parseValue_number_start.
Qed.

(** The text of a JSON value, followed by a delimiter, reads back as that
    value, with fuel for every value in it. *)
Lemma parseValue_serializeJSON (v : JSValue) :
  jsonData v = true ->
  forall (text : string) (fuel : nat) (rest : string),
    serializeJSON v = Some text -> (size v <= fuel)%nat -> delimited rest = true ->
    parseValue fuel (text ++ rest) = Some (v, rest).
Proof.
  induction v as [| |b|n|s|elems IH|fields IH] using JSValue_ind;
    intros Hdata text fuel rest Htext Hfuel Hrest;
    try discriminate;
    (destruct fuel as [|fuel]; [simpl in Hfuel; lia|]).
  - injection Htext as <-. reflexivity.
  - destruct b; injection Htext as <-; reflexivity.
  - destruct n as [| | | |z]; try discriminate. injection Htext as <-.
    cbn [jsonData] in Hdata. apply Z.leb_le in Hdata.
    now apply parseValue_number.
  - injection Htext as <-. rewrite quoteJSONString_append.
    rewrite parseValue_step, skipWs_head by reflexivity.
    simpl. now rewrite parseStringBody_quoteUnits.
  - rewrite serializeJSON_array in Htext. apply (inj Some) in Htext. subst text.
    rewrite jsonData_array in Hdata. rewrite size_array in Hfuel.
    rewrite (bracket_append "[" "]").
    rewrite parseValue_step, skipWs_head by reflexivity.
    simpl (Ascii.eqb _ _). cbv iota.
    destruct elems as [|e tail]; [reflexivity|].
    assert (Hhead : exists c t,
               joinWith "," (map (fun e => default "null" (serializeJSON e)) (e :: tail))
                 ++ String "]" rest = String c t
               /\ isWhitespace c = false /\ Ascii.eqb c "]" = false).
    { simpl in Hdata. apply andb_true_iff in Hdata as [He _].
      destruct (serializeJSON_jsonData e He) as [te Hte].
      destruct (serializeJSON_head e te Hte) as (c & t & -> & Hws & Hclose).
      simpl map. rewrite Hte. simpl default.
      destruct tail; simpl; eexists; eexists; repeat split; eassumption. }
    destruct Hhead as (c & t & Heq & Hws & Hclose).
    rewrite Heq, skipWs_head by assumption. rewrite Hclose. rewrite <- Heq.
    rewrite (parseElements_texts (e :: tail)); try reflexivity; try assumption;
      try discriminate; lia.
  - rewrite serializeJSON_object in Htext. apply (inj Some) in Htext. subst text.
    rewrite jsonData_object in Hdata. apply andb_true_iff in Hdata as [Hkeys Hdata].
    rewrite size_object in Hfuel.
    rewrite (bracket_append "{" "}").
    rewrite parseValue_step, skipWs_head by reflexivity.
    simpl (Ascii.eqb _ _). cbv iota.
    destruct fields as [|[k e] tail]; [reflexivity|].
    assert (Hhead : exists t,
               joinWith ","
                 (omap (fun kv => (fun text => quoteJSONString kv.1 ++ ":" ++ text)
                                    <$> serializeJSON kv.2) ((k, e) :: tail))
                 ++ String "}" rest = String dquote t).
    { simpl in Hdata. apply andb_true_iff in Hdata as [He _].
      destruct (serializeJSON_jsonData e He) as [te Hte].
      rewrite (memberTexts_cons k e te tail Hte).
      destruct (omap _ tail); unfold quoteJSONString; simpl; eexists; reflexivity. }
    destruct Hhead as (t & Heq).
    rewrite Heq, skipWs_head by reflexivity.
    change (Ascii.eqb dquote "}") with false. cbv iota. rewrite <- Heq.
    rewrite (parseMembers_texts ((k, e) :: tail)); try assumption; try discriminate;
      [|simpl in *; lia].
    simpl. now rewrite objectOf_distinct.
Qed.

(** *** Enough fuel *)

Lemma elementTexts_length (l : list JSValue) :
  Forall (fun e => jsonData e = true -> forall text,
            serializeJSON e = Some text -> (size e <= String.length text)%nat) l ->
  forallb jsonData l = true ->
  (list_sum (map (fun e => S (size e)) l)
   <= S (String.length
           (joinWith "," (map (fun e => default "null" (serializeJSON e)) l))))%nat.
Proof.
  induction 1 as [|e tail He _ IH]; intros Hdata; [simpl; lia|].
  simpl in Hdata. apply andb_true_iff in Hdata as [Hdata_e Hdata_tail].
  destruct (serializeJSON_jsonData e Hdata_e) as [text Htext].
  specialize (He Hdata_e text Htext). specialize (IH Hdata_tail).
  rewrite !map_cons. rewrite Htext. simpl default. simpl list_sum.
  destruct tail as [|e2 tail]; [simpl; lia|].
  rewrite joinWith_more by discriminate.
  rewrite !length_append. simpl (String.length ","). lia.
Qed.

Lemma memberTexts_length (l : list (string * JSValue)) :
  Forall (fun kv => jsonData kv.2 = true -> forall text,
            serializeJSON kv.2 = Some text -> (size kv.2 <= String.length text)%nat) l ->
  forallb (fun kv => jsonData kv.2) l = true ->
  (list_sum (map (fun kv => S (size kv.2)) l)
   <= S (String.length
           (joinWith ","
              (omap (fun kv => (fun text => quoteJSONString kv.1 ++ ":" ++ text)
                                 <$> serializeJSON kv.2) l))))%nat.
Proof.
  induction 1 as [|[k e] tail He _ IH]; intros Hdata; [simpl; lia|].
  rewrite map_cons. simpl list_sum.
  simpl in Hdata. apply andb_true_iff in Hdata as [Hdata_e Hdata_tail].
  destruct (serializeJSON_jsonData e Hdata_e) as [text Htext].
  specialize (He Hdata_e text Htext). specialize (IH Hdata_tail). simpl in He.
  rewrite (memberTexts_cons k e text tail Htext).
  destruct tail as [|[k2 e2] tail].
  - change (omap _ []) with (@nil string). rewrite joinWith_single.
    rewrite !length_append. simpl list_sum. simpl snd. lia.
  - apply andb_true_iff in Hdata_tail as Hsplit. destruct Hsplit as [Hdata_e2 _].
    destruct (serializeJSON_jsonData e2 Hdata_e2) as [text2 Htext2].
    rewrite joinWith_more
      by (rewrite (memberTexts_cons k2 e2 text2 tail Htext2); discriminate).
    rewrite !length_append. simpl (String.length ","). simpl snd. lia.
Qed.

Lemma size_le_length (v : JSValue) :
  jsonData v = true -> forall text,
    serializeJSON v = Some text -> (size v <= String.length text)%nat.
Proof.
  induction v as [| |b|n|s|elems IH|fields IH] using JSValue_ind;
    intros Hdata text Htext; try discriminate.
  - injection Htext as <-. simpl. lia.
  - destruct b; injection Htext as <-; simpl; lia.
  - destruct n as [| | | |z]; try discriminate.
    change (Some (numberToString (Int z)) = Some text) in Htext.
    apply (inj Some) in Htext. subst text.
    destruct (numberToString_head z) as (c & t & -> & _). simpl. lia.
  - apply (inj Some) in Htext. subst text. unfold quoteJSONString. simpl. lia.
  - rewrite serializeJSON_array in Htext. apply (inj Some) in Htext. subst text.
    rewrite jsonData_array in Hdata. rewrite size_array.
    pose proof (elementTexts_length elems IH Hdata) as Hlen.
    rewrite !length_append. set (inner := joinWith _ _) in *. simpl String.length. lia.
  - rewrite serializeJSON_object in Htext. apply (inj Some) in Htext. subst text.
    rewrite jsonData_object in Hdata. apply andb_true_iff in Hdata as [_ Hdata].
    rewrite size_object.
    pose proof (memberTexts_length fields IH Hdata) as Hlen.
    rewrite !length_append. set (inner := joinWith _ _) in *. simpl String.length. lia.
Qed.

(** [JSON.parse(JSON.stringify(x))] is [x] for every JSON value [x]. *)
Lemma JSON_parse_stringify (x : JSValue) :
  jsonData x = true -> JSON_parse (JSON_stringify x) = Normal x.
Proof.
  intros Hdata. destruct (serializeJSON_jsonData x Hdata) as [text Htext].
  unfold JSON_stringify, JSON_parse, parseJSONText. rewrite Htext. simpl toString.
  pose proof (size_le_length x Hdata text Htext) as Hsize.
  rewrite <- (append_empty_r text) at 2.
  rewrite (parseValue_serializeJSON x Hdata text _ "" Htext) by (reflexivity || lia).
  reflexivity.
Qed.

(** *** Deep equality *)




(** ** Response formatters *)

(** C6. [prepareErrorResponse] returns a value for every session state and
    every message: with [useBody] falsy the object with [responseType]
    ["error"] and [errorMessage] the message (the code lists [errorMessage]
    first), with [useBody] truthy the object with [statusCode] 400 and [body]
    the JSON text of [{errorMessage: message}], a string that parses back to
    that object. *)
Theorem C6_prepareErrorResponse_shapes (st : Session) (message : string) :
  (truthy (useBody st) = false ->
     prepareErrorResponse st message
     = VObject [("errorMessage", str message); ("responseType", str "error")]
     /\ deepEqual (prepareErrorResponse st message)
          (VObject [("responseType", str "error"); ("errorMessage", str message)]) = true)
  /\ (truthy (useBody st) = true ->
        prepareErrorResponse st message
        = VObject [("statusCode", num 400);
                   ("body", JSON_stringify (VObject [("errorMessage", str message)]))]
        /\ JSON_stringify (VObject [("errorMessage", str message)])
           = VString ("{" ++ quoteJSONString "errorMessage" ++ ":"
                          ++ quoteJSONString message ++ "}")
        /\ JSON_parse (descend (prepareErrorResponse st message) "body")
           = Normal (VObject [("errorMessage", str message)])).
Proof.
  unfold prepareErrorResponse. split; intros ->.
  - split; [reflexivity|]. simpl. now rewrite String.eqb_refl.
  - split; [reflexivity|]. split; [reflexivity|].
    change (descend _ "body") with (JSON_stringify (VObject [("errorMessage", str message)])).
    now apply JSON_parse_stringify.
Qed.

Lemma C6_witness :
  truthy (useBody freshSession) = false
  /\ prepareErrorResponse freshSession "boom"
     = VObject [("errorMessage", str "boom"); ("responseType", str "error")].
Proof.
  split; [reflexivity|].
  apply (proj1 (C6_prepareErrorResponse_shapes freshSession "boom")). reflexivity.
Defined.




(** * Further properties *)

(** ** Reading functions *)

(** X1. Whatever the session holds, [getRelatedObjects] sends exactly one
    request: a GET to the related-objects URL built from the session fields
    as strings, with the bearer header; it carries query parameters exactly
    when a non-empty filter or a relationship list was passed.  The call
    resolves to the [data] of the response and rejects with the error of the
    request, without a second request. *)
Theorem X1_getRelatedObjects_one_get
  (network : AxiosGetRequest -> Completion AxiosResponse) (st : Session)
  (parentElementId parentKey elementId : string)
  (filter : option string) (fetchedRelationships : option (list string)) :
  let outcome :=
    runRead network
      (getRelatedObjects st parentElementId parentKey elementId filter fetchedRelationships) in
  exists request : AxiosGetRequest,
    getRequestsOf (fst outcome) = [request]
    /\ getUrl request
       = relatedObjectUrl (toString (serviceAddress st)) (toString (sandboxKey st))
           parentElementId parentKey elementId
    /\ getHeaders request = [("Authorization", "Bearer " ++ toString (authToken st))]
    /\ (getParams request = None
        <-> (filter = None \/ filter = Some "") /\ fetchedRelationships = None)
    /\ snd outcome = (response ← network request; Normal (responseData response)).
Proof.
  intros outcome. subst outcome. unfold getRelatedObjects. eexists.
  simpl runRead.
  split; [destruct (network _); reflexivity|].
  split; [reflexivity|]. split; [reflexivity|]. split.
  - simpl. unfold relatedObjectsParams.
    destruct filter as [f|], fetchedRelationships as [names|]; simpl.
    + rewrite orb_true_r. split; [discriminate | intros [_ H]; discriminate].
    + rewrite orb_false_r. destruct (String.eqb f "") eqn:E; simpl.
      * apply String.eqb_eq in E. subst f. split; [intros _; split; auto | reflexivity].
      * split; [discriminate|]. intros [[H|H] _]; [discriminate|].
        injection H as ->. discriminate.
    + split; [discriminate | intros [_ H]; discriminate].
    + split; [intros _; split; auto | reflexivity].
  - destruct (network _); reflexivity.
Qed.

Lemma joinWith_comma_merge (a b : string) (rest : list string) :
  joinWith "," ((a ++ "," ++ b) :: rest) = joinWith "," (a :: b :: rest).
Proof.
  destruct rest as [|c rest].
  - reflexivity.
  - change (joinWith "," ((a ++ "," ++ b) :: c :: rest))
      with ((a ++ "," ++ b) ++ "," ++ joinWith "," (c :: rest)).
    change (joinWith "," (a :: b :: c :: rest))
      with (a ++ "," ++ b ++ "," ++ joinWith "," (c :: rest)).
    rewrite !append_assoc. reflexivity.
Qed.

(** X2. The query parameters of [getRelatedObjects]: an empty filter string
    is the same call as no filter; an empty relationship list still sends
    [fetchedRelationships], with the empty string as value; the filter, when
    sent, comes first; and relationship names are joined with commas
    unescaped, so a name that holds a comma is the same call as the two names
    around that comma. *)
Theorem X2_getRelatedObjects_query_parameters
  (st : Session) (parentElementId parentKey elementId : string) :
  (forall fetchedRelationships : option (list string),
      getRelatedObjects st parentElementId parentKey elementId (Some "") fetchedRelationships
      = getRelatedObjects st parentElementId parentKey elementId None fetchedRelationships)
  /\ relatedObjectsParams None (Some []) = Some [("fetchedRelationships", "")]
  /\ (forall (f : string) (names : list string),
         f <> "" ->
         relatedObjectsParams (Some f) (Some names)
         = Some [("filter", f); ("fetchedRelationships", joinWith "," names)])
  /\ (forall (filter : option string) (a b : string) (rest : list string),
         getRelatedObjects st parentElementId parentKey elementId filter
           (Some ((a ++ "," ++ b) :: rest))
         = getRelatedObjects st parentElementId parentKey elementId filter
             (Some (a :: b :: rest))).
Proof.
  split; [|split; [reflexivity|split]].
  - intros [names|]; reflexivity.
  - intros f names Hf. unfold relatedObjectsParams. simpl.
    destruct (String.eqb f "") eqn:E; [apply String.eqb_eq in E; contradiction|].
    reflexivity.
  - intros filter a b rest. unfold getRelatedObjects, relatedObjectsParams.
    simpl relationshipsGiven. rewrite joinWith_comma_merge. reflexivity.
Qed.

(** X3. Whatever the session holds, [getObject] sends exactly one request: a
    GET to [{serviceAddress}/schema/sandboxes/{sandboxKey}/{dataElementId}/{key}]
    with the bearer header, and with the one query parameter
    [fetchedRelationships] (the names joined by commas) exactly when a list
    was passed; it resolves to the [data] of the response and rejects with
    the error of the request. *)
Theorem X3_getObject_one_get
  (network : AxiosGetRequest -> Completion AxiosResponse) (st : Session)
  (dataElementId key : string) (fetchedRelationships : option (list string)) :
  let outcome := runRead network (getObject st dataElementId key fetchedRelationships) in
  exists request : AxiosGetRequest,
    getRequestsOf (fst outcome) = [request]
    /\ getUrl request
       = toString (serviceAddress st) ++ "/schema/sandboxes/" ++ toString (sandboxKey st)
         ++ "/" ++ dataElementId ++ "/" ++ key
    /\ getHeaders request = [("Authorization", "Bearer " ++ toString (authToken st))]
    /\ getParams request
       = (fun names => [("fetchedRelationships", joinWith "," names)]) <$> fetchedRelationships
    /\ snd outcome = (response ← network request; Normal (responseData response)).
Proof.
  intros outcome. subst outcome. unfold getObject. eexists. simpl runRead.
  split; [destruct (network _); reflexivity|].
  split; [reflexivity|]. split; [reflexivity|].
  split; [destruct fetchedRelationships; reflexivity|].
  destruct (network _); reflexivity.
Qed.

(** X4. [saveRelatedObject] posts to the URL [getRelatedObjects] reads the
    same relation from, followed by [?bypassValidation=true] when validation
    is bypassed and by nothing otherwise. *)
Theorem X4_save_and_fetch_share_the_url
  (post : AxiosRequest -> Completion AxiosResponse)
  (get : AxiosGetRequest -> Completion AxiosResponse) (st : Session)
  (parentElementId parentKey elementId : string) (objectToSave : JSValue)
  (opts : option SaveOptions) (filter : option string)
  (fetchedRelationships : option (list string)) :
  exists (saved : AxiosRequest) (fetched : AxiosGetRequest),
    requestsOf (fst (run post
      (saveRelatedObject st parentElementId parentKey elementId objectToSave opts))) = [saved]
    /\ getRequestsOf (fst (runRead get
         (getRelatedObjects st parentElementId parentKey elementId filter
            fetchedRelationships))) = [fetched]
    /\ url saved
       = getUrl fetched ++ (if bypassRequested opts then "?bypassValidation=true" else "")
    /\ headers saved = getHeaders fetched.
Proof.
  unfold saveRelatedObject, getRelatedObjects. eexists. eexists. simpl run. simpl runRead.
  split; [destruct (post _); reflexivity|].
  split; [destruct (get _); reflexivity|].
  split; [|reflexivity].
  simpl. destruct (bypassRequested opts); [reflexivity|].
  now rewrite append_empty_r.
Qed.

(** X5. Each of the three data-access functions writes the bearer token to
    the console: its first effect is a log line that ends with the token, and
    the request follows it; this happens whether or not the request
    succeeds. *)
Theorem X5_token_is_logged
  (post : AxiosRequest -> Completion AxiosResponse)
  (get : AxiosGetRequest -> Completion AxiosResponse) (st : Session)
  (a b c : string) (objectToSave : JSValue) (opts : option SaveOptions)
  (filter : option string) (fetchedRelationships : option (list string)) :
  (exists (prefix : string) (request : AxiosRequest),
      fst (run post (saveRelatedObject st a b c objectToSave opts))
      = [Logged (prefix ++ " with token " ++ toString (authToken st)); Sent request])
  /\ (exists (prefix : string) (request : AxiosGetRequest),
         fst (runRead get (getRelatedObjects st a b c filter fetchedRelationships))
         = [ReadLogged (prefix ++ " with token " ++ toString (authToken st));
            GetSent request])
  /\ (exists (prefix : string) (request : AxiosGetRequest),
         fst (runRead get (getObject st a b fetchedRelationships))
         = [ReadLogged (prefix ++ " with token " ++ toString (authToken st));
            GetSent request]).
Proof.
  split; [|split].
  - unfold saveRelatedObject.
    set (target := if bypassRequested opts then _ else _).
    exists ("Sending POST request to " ++ target). eexists. simpl run.
    rewrite !append_assoc. destruct (post _); reflexivity.
  - unfold getRelatedObjects.
    set (target := toString (serviceAddress st) ++ _).
    exists ("Sending GET request to " ++ target). eexists. simpl runRead.
    rewrite !append_assoc. destruct (get _); reflexivity.
  - unfold getObject.
    set (target := toString (serviceAddress st) ++ _).
    exists ("Sending GET request to " ++ target). eexists. simpl runRead.
    rewrite !append_assoc. destruct (get _); reflexivity.
Qed.

(** X6. After [initialize] on an event whose [body] object holds strings
    under [serviceAddress], [sandboxKey] and [authToken], [getObject] sends
    its GET to [{serviceAddress}/schema/sandboxes/{sandboxKey}/{dataElementId}/{key}]
    of that body, with that token as bearer. *)
Theorem X6_initialize_then_getObject
  (network : AxiosGetRequest -> Completion AxiosResponse)
  (fields bodyFields : list (string * JSValue)) (st : Session)
  (service sandbox token dataElementId key : string)
  (fetchedRelationships : option (list string)) :
  lookupField "body" fields = Some (VObject bodyFields) ->
  lookupField "serviceAddress" bodyFields = Some (VString service) ->
  lookupField "sandboxKey" bodyFields = Some (VString sandbox) ->
  lookupField "authToken" bodyFields = Some (VString token) ->
  exists (st' : Session) (request : AxiosGetRequest),
    initialize (VObject fields) st = Normal st'
    /\ getRequestsOf (fst (runRead network
         (getObject st' dataElementId key fetchedRelationships))) = [request]
    /\ getUrl request
       = service ++ "/schema/sandboxes/" ++ sandbox ++ "/" ++ dataElementId ++ "/" ++ key
    /\ getHeaders request = [("Authorization", "Bearer " ++ token)].
Proof.
  intros Hbody Hservice Hsandbox Htoken.
  eexists. eexists. split; [apply initialize_object|].
  assert (Hsource : fieldSource (VObject fields) = VObject bodyFields).
  { unfold fieldSource, descend. simpl. rewrite Hbody. reflexivity. }
  rewrite Hsource. unfold getObject, descend. simpl getProp.
  rewrite Hservice, Hsandbox, Htoken. simpl runRead.
  split; [destruct (network _); reflexivity|].
  split; reflexivity.
Qed.

Lemma X6_witness :
  exists (st' : Session) (request : AxiosGetRequest),
    initialize
      (VObject [("body", VObject [("authToken", str "tok"); ("sandboxKey", str "sb");
                                  ("serviceAddress", str "https://svc")])])
      freshSession = Normal st'
    /\ getRequestsOf (fst (runRead
         (fun r => Normal {| status := 200; responseData := VNull |})
         (getObject st' "customer" "17" None))) = [request]
    /\ getUrl request = "https://svc/schema/sandboxes/sb/customer/17".
Proof.
  destruct (X6_initialize_then_getObject
              (fun r => Normal {| status := 200; responseData := VNull |})
              [("body", VObject [("authToken", str "tok"); ("sandboxKey", str "sb");
                                 ("serviceAddress", str "https://svc")])]
              [("authToken", str "tok"); ("sandboxKey", str "sb");
               ("serviceAddress", str "https://svc")]
              freshSession "https://svc" "sb" "tok" "customer" "17" None
              eq_refl eq_refl eq_refl eq_refl)
    as (st' & request & Hinit & Hreq & Hurl & _).
  exists st', request. repeat split; assumption.
Defined.

(** ** Attribute paths *)

(** X8. Paths compose: resolving [p.q] is resolving [p] and then resolving
    [q] from the value found. *)
Theorem X8_getValueFromObject_composes (object : JSValue) (p q : string) :
  getValueFromObject object (p ++ "." ++ q)
  = (v ← getValueFromObject object p; getValueFromObject v q).
Proof.
  unfold getValueFromObject, split.
  change (p ++ "." ++ q) with (p ++ String "." q).
  rewrite splitFrom_at_separator. apply forComponents_app.
Qed.

Lemma splitFrom_free (sep : ascii) (cur s : string) :
  hasChar sep s = false -> splitFrom sep cur s = [cur ++ s].
Proof.
  revert cur. induction s as [|c s IH]; simpl; intros cur H.
  - now rewrite append_empty_r.
  - apply orb_false_iff in H as [Hc Hs].
    rewrite Hc. rewrite IH by assumption. now rewrite append_assoc_char.
Qed.

Lemma split_free (sep : ascii) (s : string) : hasChar sep s = false -> split sep s = [s].
Proof. intros H. unfold split. now rewrite splitFrom_free. Qed.

Lemma hasChar_append (c : ascii) (s t : string) :
  hasChar c (s ++ t) = hasChar c s || hasChar c t.
Proof.
  induction s as [|a s IH]; simpl; [reflexivity|].
  rewrite IH. now rewrite orb_assoc.
Qed.

Lemma split_qualified (relationship keyField : string) :
  hasChar ":" relationship = false ->
  split ":" (relationship ++ ":" ++ keyField)
  = relationship :: split ":" keyField.
Proof.
  intros H. unfold split.
  change (relationship ++ ":" ++ keyField) with (relationship ++ String ":" keyField).
  rewrite splitFrom_at_separator, splitFrom_free by assumption. reflexivity.
Qed.

(** X9. In a segment [relationship:keyField] the relationship name plays no
    part: two segments with the same key field resolve alike, whatever stands
    before the colon.  What is read, from a truthy object, is the property
    named by the key field with its first ["Key"] taken out. *)
Theorem X9_relationship_name_is_ignored
  (object : JSValue) (relationship other keyField : string) :
  hasChar ":" relationship = false -> hasChar "." relationship = false ->
  hasChar ":" other = false -> hasChar "." other = false ->
  hasChar "." keyField = false ->
  getValueFromObject object (relationship ++ ":" ++ keyField)
  = getValueFromObject object (other ++ ":" ++ keyField)
  /\ (hasChar ":" keyField = false ->
      getValueFromObject object (relationship ++ ":" ++ keyField)
      = if truthy object then getProp object (replace "Key" "" keyField)
        else Normal object).
Proof.
  intros Hr Hrd Ho Hod Hk.
  assert (Hone : forall name : string,
             hasChar ":" name = false -> hasChar "." name = false ->
             getValueFromObject object (name ++ ":" ++ keyField)
             = if truthy object
               then getProp object (replace "Key" "" (nth 0 (split ":" keyField) ""))
               else Normal object).
  { intros name Hcolon Hdot. unfold getValueFromObject.
    rewrite split_free by (rewrite !hasChar_append, Hdot, Hk; reflexivity).
    cbn [forComponents]. unfold resolveComponent.
    rewrite split_qualified by assumption.
    destruct (truthy object); [|reflexivity].
    pose proof (splitFrom_nonempty ":" "" keyField) as Hlen.
    fold (split ":" keyField) in Hlen.
    destruct (split ":" keyField) as [|piece pieces]; [simpl in Hlen; lia|].
    cbn [List.length nth].
    replace (1 <? Z.of_nat (S (S (List.length pieces)))) with true
      by (symmetry; apply Z.ltb_lt; lia).
    destruct (getProp object _); reflexivity. }
  split.
  - now rewrite (Hone relationship Hr Hrd), (Hone other Ho Hod).
  - intros Hkc. rewrite (Hone relationship Hr Hrd).
    now rewrite (split_free ":" keyField Hkc).
Qed.

Lemma X9_witness :
  getValueFromObject (VObject [("owner", VObject [("name", str "X")])]) ("member" ++ ":" ++ "ownerKey")
  = getValueFromObject (VObject [("owner", VObject [("name", str "X")])]) ("account" ++ ":" ++ "ownerKey").
Proof.
  apply (X9_relationship_name_is_ignored _ "member" "account" "ownerKey"); reflexivity.
Defined.

(** *** Array indices along a path *)

Lemma digitsValue_step (acc : N) (c : ascii) (rest : string) :
  digitsValue acc (String c rest)
  = match digitValue c with
    | Some d => digitsValue (acc * 10 + d)%N rest
    | None => None
    end.
Proof. reflexivity. Qed.

Lemma digitsValue_uint (d : Decimal.uint) (acc : positive) :
  digitsValue (N.pos acc) (NilEmpty.string_of_uint d)
  = Some (N.pos (Pos.of_uint_acc d acc)).
Proof.
  revert acc. induction d as [|d IH|d IH|d IH|d IH|d IH|d IH|d IH|d IH|d IH|d IH];
    intros acc; [reflexivity|..];
    cbn [NilEmpty.string_of_uint Pos.of_uint_acc]; rewrite digitsValue_step;
    match goal with
    | |- context [digitValue ?c] =>
        let v := eval vm_compute in (digitValue c) in change (digitValue c) with v
    end; cbv iota beta; rewrite <- IH; f_equal; lia.
Qed.

Lemma allDigits_uint (d : Decimal.uint) : allDigits (NilEmpty.string_of_uint d) = true.
Proof. induction d; simpl; auto. Qed.

Lemma allDigits_hasChar (c : ascii) (s : string) :
  isDigit c = false -> allDigits s = true -> hasChar c s = false.
Proof.
  intros Hc. induction s as [|a s IH]; simpl; [reflexivity|].
  intros H. apply andb_true_iff in H as [Ha Hs].
  rewrite (IH Hs), orb_false_r.
  destruct (Ascii.eqb a c) eqn:E; [|reflexivity].
  apply Ascii.eqb_eq in E. subst a. congruence.
Qed.

Lemma indexKey_digits (i : nat) : allDigits (indexKey i) = true.
Proof.
  unfold indexKey. destruct (N.to_uint (N.of_nat i)); try reflexivity;
    match goal with
    | |- allDigits (NilZero.string_of_uint ?d) = true =>
        change (NilZero.string_of_uint d) with (NilEmpty.string_of_uint d)
    end; apply allDigits_uint.
Qed.

Lemma arrayIndex_indexKey (i : nat) : arrayIndex (indexKey i) = Some i.
Proof.
  unfold indexKey. destruct (N.of_nat i) as [|p] eqn:Hi.
  - assert (i = 0%nat) by lia. subst i. reflexivity.
  - cbn [N.to_uint].
    pose proof (DecimalPos.Unsigned.of_to p) as Hback.
    pose proof (DecimalPos.Unsigned.to_uint_nonnil p) as Hnil.
    pose proof (to_uint_no_leading_zero p) as Hzero.
    destruct (Pos.to_uint p) as [|d|d|d|d|d|d|d|d|d|d];
      [now contradiction Hnil | now contradiction (Hzero d) |..];
      cbn [NilZero.string_of_uint NilEmpty.string_of_uint];
      unfold arrayIndex; rewrite digitsValue_step;
      match goal with
      | |- context [digitValue ?c] =>
          let v := eval vm_compute in (digitValue c) in change (digitValue c) with v
      end; cbv iota beta;
      match goal with
      | |- context [digitsValue (0 * 10 + ?k)%N _] =>
          change (0 * 10 + k)%N with k
      end;
      rewrite digitsValue_uint; cbn [Pos.of_uint] in Hback; rewrite Hback;
      simpl fmap; f_equal; lia.
Qed.

(** X10. A path may step into an array by position: on an array, the
    decimal numeral of [i] resolves to the element at [i], and to
    [undefined] beyond the end. *)
Theorem X10_getValueFromObject_indexes_arrays (elems : list JSValue) (i : nat) :
  getValueFromObject (VArray elems) (indexKey i)
  = Normal (orUndefined (nth_error elems i)).
Proof.
  pose proof (indexKey_digits i) as Hdigits.
  unfold getValueFromObject.
  rewrite split_free by (apply allDigits_hasChar; [reflexivity | assumption]).
  cbn [forComponents]. unfold resolveComponent. cbn [truthy].
  rewrite split_free by (apply allDigits_hasChar; [reflexivity | assumption]).
  cbn [List.length]. change (1 <? Z.of_nat 1) with false. cbv iota.
  unfold getProp.
  assert (Hlength : String.eqb (indexKey i) "length" = false).
  { destruct (String.eqb (indexKey i) "length") eqn:E; [|reflexivity].
    apply String.eqb_eq in E. rewrite E in Hdigits. discriminate. }
  rewrite Hlength, arrayIndex_indexKey. reflexivity.
Qed.

(** ** Comparator, further *)

Lemma lowerUnit_idempotent (c : ascii) : lowerUnit (lowerUnit c) = lowerUnit c.
Proof. destruct c as [[|] [|] [|] [|] [|] [|] [|] [|]]; reflexivity. Qed.

Lemma toLowerCase_idempotent (s : string) : toLowerCase (toLowerCase s) = toLowerCase s.
Proof.
  induction s as [|c s IH]; simpl; [reflexivity|].
  now rewrite lowerUnit_idempotent, IH.
Qed.

Lemma truthy_toLowerCase (s : string) : truthy (str (toLowerCase s)) = truthy (str s).
Proof. destruct s; reflexivity. Qed.

Lemma numberLt_asymmetric (x y : JSNumber) : numberLt x y = true -> numberLt y x = false.
Proof.
  destruct x, y; simpl; try discriminate; try reflexivity.
  all: intros H; apply Z.ltb_lt in H; apply Z.ltb_ge; lia.
Qed.

Lemma string_ltb_asymmetric (s t : string) : String.ltb s t = true -> String.ltb t s = false.
Proof.
  unfold String.ltb. rewrite (String.compare_antisym t s).
  destruct (String.compare s t); simpl; congruence.
Qed.

Section CompareValuesFurther.
Context {host : Host}.

Lemma lessThan_asymmetric (a b : JSValue) : lessThan a b = true -> lessThan b a = false.
Proof.
  unfold lessThan.
  destruct (toPrimitive a) eqn:Ha, (toPrimitive b) eqn:Hb;
    try apply numberLt_asymmetric.
  apply string_ltb_asymmetric.
Qed.

Lemma compareValues_default (valueA valueB : JSValue) (descending caseInsensitive : bool) :
  caseInsensitive = false \/ typeOf valueA <> "string" ->
  compareValues valueA valueB descending caseInsensitive
  = Normal (defaultOrdering valueA valueB descending).
Proof.
  intros [->|H]; [|now apply compareValues_other_first].
  unfold compareValues, defaultOrdering. simpl.
  destruct (lessThan valueA valueB); [reflexivity|].
  destruct (greaterThan valueA valueB); reflexivity.
Qed.

Lemma defaultOrdering_swap (a b : JSValue) (descending : bool) :
  defaultOrdering b a descending = - defaultOrdering a b descending.
Proof.
  unfold defaultOrdering, greaterThan.
  destruct (lessThan a b) eqn:Hab.
  - rewrite (lessThan_asymmetric a b Hab). now destruct descending.
  - destruct (lessThan b a); now destruct descending.
Qed.

(** X11. Outside the case-insensitive branch the comparator is
    antisymmetric: swapping the two values turns the sign of the result.
    This covers every call with [caseInsensitive] unset, and the calls with
    it set in which neither value is a string. *)
Theorem X11_default_comparison_is_antisymmetric
  (valueA valueB : JSValue) (descending caseInsensitive : bool) :
  caseInsensitive = false \/ (typeOf valueA <> "string" /\ typeOf valueB <> "string") ->
  exists x : Z,
    compareValues valueA valueB descending caseInsensitive = Normal x
    /\ compareValues valueB valueA descending caseInsensitive = Normal (- x).
Proof.
  intros H. exists (defaultOrdering valueA valueB descending).
  rewrite <- defaultOrdering_swap.
  split; apply compareValues_default; tauto.
Qed.

(** X12. [descending] turns the sign of the result whenever the result comes
    from an ordering: in the default branch, and in the case-insensitive
    branch when both values are truthy. *)
Theorem X12_descending_turns_the_sign
  (valueA valueB : JSValue) (caseInsensitive : bool) :
  caseInsensitive = false \/ typeOf valueA <> "string"
    \/ (truthy valueA = true /\ truthy valueB = true) ->
  compareValues valueA valueB true caseInsensitive
  = negated (compareValues valueA valueB false caseInsensitive).
Proof.
  intros H.
  destruct (String.eqb (typeOf valueA) "string") eqn:Htype, caseInsensitive eqn:Hci.
  - apply String.eqb_eq in Htype. destruct H as [H|[H|[Ha Hb]]]; try congruence.
    rewrite !compareValues_string_first by assumption. rewrite Ha, Hb. simpl.
    destruct (callToLowerCase valueA) as [lowerA|e]; [|reflexivity]. simpl.
    destruct (callToLowerCase valueB) as [lowerB|e]; [|reflexivity]. simpl.
    unfold negated. simpl. f_equal. lia.
  - rewrite !compareValues_default by now left.
    unfold negated, defaultOrdering. simpl.
    destruct (lessThan valueA valueB); [reflexivity|].
    destruct (greaterThan valueA valueB); reflexivity.
  - assert (Hne : typeOf valueA <> "string")
      by (intros E; rewrite E in Htype; discriminate).
    rewrite !compareValues_default by now right.
    unfold negated, defaultOrdering. simpl.
    destruct (lessThan valueA valueB); [reflexivity|].
    destruct (greaterThan valueA valueB); reflexivity.
  - rewrite !compareValues_default by now left.
    unfold negated, defaultOrdering. simpl.
    destruct (lessThan valueA valueB); [reflexivity|].
    destruct (greaterThan valueA valueB); reflexivity.
Qed.

(** X13. The case-insensitive comparison of two strings does not see their
    case: replacing either string by its lower-case form leaves the result
    as it is. *)
Theorem X13_case_is_ignored (s t : string) (descending : bool) :
  compareValues (str s) (str t) descending true
  = compareValues (str (toLowerCase s)) (str (toLowerCase t)) descending true.
Proof.
  rewrite !compareValues_string_first by reflexivity.
  rewrite !truthy_toLowerCase. simpl callToLowerCase.
  now rewrite !toLowerCase_idempotent.
Qed.

(** X14. With [caseInsensitive] set and a non-empty string as first value,
    a truthy second value that is not a string makes the comparator throw a
    [TypeError]: it is sent [toLowerCase], which only strings have. *)
Theorem X14_mixed_types_throw (s : string) (valueB : JSValue) (descending : bool) :
  s <> "" -> truthy valueB = true -> typeOf valueB <> "string" ->
  compareValues (VString s) valueB descending true
  = Throw (TypeError "toLowerCase is not a function").
Proof.
  intros Hs Hb Htype. rewrite compareValues_string_first by reflexivity.
  assert (Ha : truthy (VString s) = true).
  { simpl. destruct (String.eqb s "") eqn:E; [|reflexivity].
    apply String.eqb_eq in E. contradiction. }
  rewrite Ha, Hb. simpl.
  destruct valueB; try discriminate; try reflexivity. now contradiction Htype.
Qed.

(** X15. The result is [-1], [0] or [1], as the comment of the function
    says, in every case but one: in the case-insensitive comparison of two
    truthy values it is whatever [localeCompare] returns. *)
Theorem X15_result_is_a_sign
  (valueA valueB : JSValue) (descending caseInsensitive : bool) (x : Z) :
  caseInsensitive = false \/ typeOf valueA <> "string"
    \/ truthy valueA && truthy valueB = false ->
  compareValues valueA valueB descending caseInsensitive = Normal x ->
  x = -1 \/ x = 0 \/ x = 1.
Proof.
  intros H.
  destruct (String.eqb (typeOf valueA) "string") eqn:Htype, caseInsensitive eqn:Hci.
  - apply String.eqb_eq in Htype. destruct H as [H|[H|H]]; try congruence.
    rewrite compareValues_string_first by assumption. rewrite H.
    destruct (truthy valueA), (truthy valueB); simpl; intros [= <-]; auto.
  - rewrite compareValues_default by now left. intros [= <-].
    unfold defaultOrdering.
    destruct (lessThan valueA valueB), (greaterThan valueA valueB), descending; auto.
  - assert (Hne : typeOf valueA <> "string")
      by (intros E; rewrite E in Htype; discriminate).
    rewrite compareValues_default by now right. intros [= <-].
    unfold defaultOrdering.
    destruct (lessThan valueA valueB), (greaterThan valueA valueB), descending; auto.
  - rewrite compareValues_default by now left. intros [= <-].
    unfold defaultOrdering.
    destruct (lessThan valueA valueB), (greaterThan valueA valueB), descending; auto.
Qed.

Lemma lessThan_NaN_l (b : JSValue) : lessThan (VNumber NaN) b = false.
Proof. unfold lessThan. simpl. destruct (toPrimitive b); reflexivity. Qed.

Lemma lessThan_NaN_r (a : JSValue) : lessThan a (VNumber NaN) = false.
Proof.
  unfold lessThan. simpl (toPrimitive (VNumber NaN)).
  replace (toNumber (VNumber NaN)) with NaN by reflexivity.
  destruct (toPrimitive a); apply numberLt_NaN_r.
Qed.

(** X16. In the default branch a value that is [undefined] (a missing
    attribute) or [NaN] ties with every value, on either side and whatever
    [descending] is: such rows are never ordered against the others. *)
Theorem X16_missing_values_tie (missing other : JSValue) (descending : bool) :
  missing = VUndefined \/ missing = VNumber NaN ->
  compareValues missing other descending false = Normal 0
  /\ compareValues other missing descending false = Normal 0
  /\ compareValues missing other descending true = Normal 0.
Proof.
  intros [->| ->].
  - rewrite !compareValues_undefined_first.
    repeat split. rewrite compareValues_default by now left.
    unfold defaultOrdering, greaterThan.
    now rewrite lessThan_undefined_l, lessThan_undefined_r.
  - rewrite (compareValues_default (VNumber NaN) other descending true)
      by (right; discriminate).
    rewrite !compareValues_default by now left.
    unfold defaultOrdering, greaterThan.
    rewrite !lessThan_NaN_l, !lessThan_NaN_r. repeat split.
Qed.

End CompareValuesFurther.

Lemma X11_witness :
  exists x : Z,
    @compareValues exampleHost (str "b") (num 3) true false = Normal x
    /\ @compareValues exampleHost (num 3) (str "b") true false = Normal (- x).
Proof.
  apply (@X11_default_comparison_is_antisymmetric exampleHost). now left.
Defined.

Lemma X12_witness :
  @compareValues exampleHost (str "Bob") (str "alice") true true
  = negated (@compareValues exampleHost (str "Bob") (str "alice") false true).
Proof.
  apply (@X12_descending_turns_the_sign exampleHost). right. right. split; reflexivity.
Defined.

Lemma X14_witness :
  @compareValues exampleHost (VString "x") (VArray []) false true
  = Throw (TypeError "toLowerCase is not a function").
Proof.
  apply (@X14_mixed_types_throw exampleHost); [discriminate | reflexivity | discriminate].
Defined.

Lemma X15_witness :
  @compareValues exampleHost (num 2) (num 7) true false = Normal 1 /\ (1 = -1 \/ 1 = 0 \/ 1 = 1).
Proof.
  split; [reflexivity|].
  apply (@X15_result_is_a_sign exampleHost (num 2) (num 7) true false 1);
    [now left | reflexivity].
Defined.

Lemma X16_witness :
  @compareValues exampleHost (VNumber NaN) (num 4) true false = Normal 0.
Proof.
  apply (@X16_missing_values_tie exampleHost (VNumber NaN) (num 4) true). now right.
Defined.

(** ** Sort, further *)

Lemma StronglySorted_of_lookup {A} (R : A -> A -> Prop) (l : list A) :
  (forall (i j : nat) (x y : A),
      (i < j)%nat -> l !! i = Some x -> l !! j = Some y -> R x y) ->
  StronglySorted R l.
Proof.
  induction l as [|a l IH]; intros H; constructor.
  - apply IH. intros i j x y Hij Hi Hj.
    apply (H (S i) (S j)); [lia | exact Hi | exact Hj].
  - rewrite Forall_forall. intros y Hy. apply list_elem_of_lookup_1 in Hy as [j Hj].
    apply (H 0%nat (S j) a y); [lia | reflexivity | exact Hj].
Qed.

Lemma insertSorted_in_order (comparefn : JSValue -> JSValue -> Completion Z) (x : JSValue)
  (l : list JSValue) :
  Forall (mayPrecede comparefn x) l -> insertSorted comparefn x l = Normal (x :: l).
Proof.
  destruct l as [|y rest]; [reflexivity|].
  intros H. apply Forall_cons in H as [(c & Hc & Hle) _].
  cbn [insertSorted]. rewrite Hc. simpl. apply Z.leb_le in Hle. now rewrite Hle.
Qed.

Lemma arraySort_in_order (comparefn : JSValue -> JSValue -> Completion Z) (l : list JSValue) :
  StronglySorted (mayPrecede comparefn) l -> arraySort comparefn l = Normal l.
Proof.
  induction 1 as [|x l _ IH Hx]; [reflexivity|].
  cbn [arraySort]. rewrite IH. simpl. now apply insertSorted_in_order.
Qed.

Lemma arraySort_ext (f g : JSValue -> JSValue -> Completion Z) (l : list JSValue) :
  (forall a b, f a b = g a b) -> arraySort f l = arraySort g l.
Proof.
  intros Hfg.
  assert (Hins : forall x l, insertSorted f x l = insertSorted g x l).
  { intros x l'. induction l' as [|y rest IH]; [reflexivity|].
    cbn [insertSorted]. rewrite IH.
    destruct x, y; simpl; try rewrite Hfg; reflexivity. }
  induction l as [|x rest IH]; [reflexivity|].
  cbn [arraySort]. rewrite IH.
  destruct (arraySort g rest); simpl; [apply Hins | reflexivity].
Qed.

Lemma sortCompare_undefined_l (comparefn : JSValue -> JSValue -> Completion Z)
  (y : JSValue) (c : Z) :
  sortCompare comparefn VUndefined y = Normal c -> c <= 0 -> isUndefined y = true.
Proof. destruct y; simpl; intros [= <-]; (reflexivity || lia). Qed.

Lemma sortCompare_undefined_r (comparefn : JSValue -> JSValue -> Completion Z)
  (x : JSValue) (c : Z) :
  sortCompare comparefn x VUndefined = Normal c -> c <= 0.
Proof. destruct x; simpl; intros [= <-]; lia. Qed.

Lemma insertSorted_undefined_last (comparefn : JSValue -> JSValue -> Completion Z)
  (x : JSValue) (l l' : list JSValue) :
  StronglySorted (fun v w => isUndefined v = true -> isUndefined w = true) l ->
  insertSorted comparefn x l = Normal l' ->
  StronglySorted (fun v w => isUndefined v = true -> isUndefined w = true) l'.
Proof.
  revert l'. induction l as [|y rest IH]; cbn [insertSorted]; intros l' Hs.
  - intros [= <-]. repeat constructor.
  - apply StronglySorted_inv in Hs as [Hrest Hy].
    destruct (sortCompare comparefn x y) as [c|e] eqn:Hc; [|discriminate]. simpl.
    destruct (c <=? 0) eqn:Hle.
    + intros [= <-]. constructor; [constructor; assumption|].
      apply Z.leb_le in Hle.
      assert (Hxy : isUndefined x = true -> isUndefined y = true).
      { intros Hx. destruct x; try discriminate.
        now apply (sortCompare_undefined_l comparefn y c). }
      constructor; [exact Hxy|].
      rewrite Forall_forall in Hy. rewrite Forall_forall.
      intros z Hz Hx. apply (Hy z Hz). now apply Hxy.
    + destruct (insertSorted comparefn x rest) as [rest'|e] eqn:Hins; [|discriminate].
      simpl. intros [= <-]. constructor; [now apply IH|].
      apply Z.leb_gt in Hle.
      assert (Hyd : isUndefined y = false).
      { destruct y; try reflexivity.
        pose proof (sortCompare_undefined_r comparefn x c Hc). lia. }
      rewrite Forall_forall. intros z _ Hyu. congruence.
Qed.

Lemma arraySort_undefined_last (comparefn : JSValue -> JSValue -> Completion Z)
  (l l' : list JSValue) :
  arraySort comparefn l = Normal l' ->
  StronglySorted (fun v w => isUndefined v = true -> isUndefined w = true) l'.
Proof.
  revert l'. induction l as [|x rest IH]; cbn [arraySort]; intros l'.
  - intros [= <-]. constructor.
  - destruct (arraySort comparefn rest) as [sorted|e]; [|discriminate]. simpl.
    apply insertSorted_undefined_last. now apply IH.
Qed.

Lemma insertSorted_undefined (comparefn : JSValue -> JSValue -> Completion Z)
  (ds us : list JSValue) :
  Forall (fun v => isUndefined v = false) ds ->
  Forall (fun v => isUndefined v = true) us ->
  insertSorted comparefn VUndefined (ds ++ us)%list = Normal (ds ++ VUndefined :: us)%list.
Proof.
  intros Hd Hu. induction Hd as [|y ds Hy _ IH].
  - destruct Hu as [|y us Hy _]; [reflexivity|]. destruct y; try discriminate. reflexivity.
  - change ((y :: ds) ++ us)%list with (y :: (ds ++ us)%list).
    cbn [insertSorted]. rewrite IH. destruct y; try discriminate; reflexivity.
Qed.

Lemma Forall_filter_true (f : JSValue -> bool) (l : list JSValue) :
  Forall (fun v => f v = true) (List.filter f l).
Proof.
  induction l as [|x l IH]; simpl; [constructor|].
  destruct (f x) eqn:E; [constructor; assumption | assumption].
Qed.

(** *** The arrangement of a consistent comparator *)

Lemma tied_eqCF (comparefn : JSValue -> JSValue -> Completion Z) (x y : JSValue) :
  tied comparefn x y = true <-> eqCF (sortCompare comparefn) x y.
Proof.
  unfold tied, eqCF. destruct (sortCompare comparefn x y) as [c|e]; split;
    try discriminate.
  - intros H. apply Z.eqb_eq in H. now subst c.
  - intros H. assert (c = 0) by congruence. now subst c.
Qed.

Section StableArrangement.
Variable comparefn : JSValue -> JSValue -> Completion Z.
Variable elems : list JSValue.
Hypothesis consistent : consistentOn comparefn elems.

Lemma tied_refl (x : JSValue) : x ∈ elems -> tied comparefn x x = true.
Proof.
  intros Hx. apply tied_eqCF.
  now apply (proj1 (proj2 (consistentOn_sortCompare _ _ consistent))).
Qed.

Lemma tied_both (z x y : JSValue) (c : Z) :
  z ∈ elems -> x ∈ elems -> y ∈ elems ->
  tied comparefn z x = true -> tied comparefn z y = true ->
  sortCompare comparefn x y = Normal c -> c = 0.
Proof.
  intros Hz Hx Hy Hzx Hzy Hc. apply tied_eqCF in Hzx, Hzy.
  destruct (consistentOn_sortCompare _ _ consistent) as (_ & _ & Hsym & Heq & _).
  assert (Hxy : eqCF (sortCompare comparefn) x y).
  { apply (Heq x z y); auto. }
  unfold eqCF in Hxy. congruence.
Qed.

(** The insertion keeps tied elements in the order they had. *)
Lemma insertSorted_stable (x z : JSValue) (l l' : list JSValue) :
  x ∈ elems -> z ∈ elems -> Forall (fun v => v ∈ elems) l ->
  insertSorted comparefn x l = Normal l' ->
  List.filter (tied comparefn z) l' = List.filter (tied comparefn z) (x :: l).
Proof.
  intros Hx Hz. revert l'. induction l as [|y rest IH]; intros l' Hl Hins.
  - cbn [insertSorted] in Hins. assert (l' = [x]) by congruence. now subst l'.
  - apply Forall_cons in Hl as [Hy Hrest]. cbn [insertSorted] in Hins.
    destruct (sortCompare comparefn x y) as [c|e] eqn:Hc; [|discriminate].
    cbn [mbind Completion_bind] in Hins.
    destruct (c <=? 0) eqn:Hle; [assert (l' = x :: y :: rest) by congruence; now subst l'|].
    destruct (insertSorted comparefn x rest) as [rest'|e] eqn:Hrest'; [|discriminate].
    cbn [mbind Completion_bind] in Hins.
    assert (l' = y :: rest') by congruence. subst l'.
    cbn [List.filter]. rewrite (IH rest' Hrest eq_refl). cbn [List.filter].
    destruct (tied comparefn z x) eqn:Hzx, (tied comparefn z y) eqn:Hzy; try reflexivity.
    apply Z.leb_gt in Hle.
    pose proof (tied_both z x y c Hz Hx Hy Hzx Hzy Hc). lia.
Qed.

Lemma arraySort_stable (z : JSValue) (l l' : list JSValue) :
  z ∈ elems -> Forall (fun v => v ∈ elems) l ->
  arraySort comparefn l = Normal l' ->
  List.filter (tied comparefn z) l' = List.filter (tied comparefn z) l.
Proof.
  intros Hz. revert l'. induction l as [|x rest IH]; intros l' Hl Hsort.
  - cbn [arraySort] in Hsort. assert (l' = []) by congruence. now subst l'.
  - apply Forall_cons in Hl as [Hx Hrest]. cbn [arraySort] in Hsort.
    destruct (arraySort comparefn rest) as [sorted|e] eqn:Hsorted; [|discriminate].
    cbn [mbind Completion_bind] in Hsort.
    assert (Hin : Forall (fun v => v ∈ elems) sorted)
      by now rewrite (arraySort_perm _ _ _ Hsorted).
    rewrite (insertSorted_stable x z sorted l' Hx Hz Hin Hsort).
    cbn [List.filter]. now rewrite (IH sorted Hrest eq_refl).
Qed.

(** Two elements each allowed before the other tie. *)
Lemma mayPrecede_both_ways (x y : JSValue) :
  x ∈ elems -> y ∈ elems ->
  mayPrecede comparefn x y -> mayPrecede comparefn y x -> tied comparefn x y = true.
Proof.
  intros Hx Hy Hxy Hyx. pose proof (consistentOn_sortCompare _ _ consistent) as Hsc.
  apply tied_eqCF. apply mayPrecede_iff in Hxy, Hyx.
  destruct Hxy as [Hlt|Heq]; [exfalso | exact Heq].
  pose proof (ltCF_swap _ _ Hsc x y Hx Hy Hlt) as Hgt.
  destruct Hyx as [Hlt'|Heq'].
  - apply (ltCF_not_gtCF (sortCompare comparefn) y x); assumption.
  - apply (gtCF_not_eqCF (sortCompare comparefn) y x); assumption.
Qed.

(** For a consistent comparator there is one arrangement of the elements
    that is in order and keeps tied elements in the order they had: the one
    ECMA-262 requires of [sort]. *)
Lemma stable_arrangement_unique (l1 l2 : list JSValue) :
  Forall (fun v => v ∈ elems) l1 ->
  l1 ≡ₚ l2 ->
  StronglySorted (mayPrecede comparefn) l1 ->
  StronglySorted (mayPrecede comparefn) l2 ->
  (forall z, z ∈ elems ->
     List.filter (tied comparefn z) l1 = List.filter (tied comparefn z) l2) ->
  l1 = l2.
Proof.
  revert l2. induction l1 as [|a t1 IH]; intros l2 Hin Hperm Hs1 Hs2 Hstable.
  - apply Permutation_nil in Hperm. now subst l2.
  - destruct l2 as [|b t2].
    { symmetry in Hperm. apply Permutation_nil in Hperm. discriminate. }
    apply Forall_cons in Hin as [Ha Ht1].
    apply StronglySorted_inv in Hs1 as [Hs1 Ha_first].
    apply StronglySorted_inv in Hs2 as [Hs2 Hb_first].
    rewrite Forall_forall in Ha_first, Hb_first.
    assert (Hb_in : b ∈ a :: t1) by (rewrite Hperm; left).
    assert (Hb : b ∈ elems).
    { apply elem_of_cons in Hb_in as [->|Hb_in]; [assumption|].
      rewrite Forall_forall in Ht1. now apply Ht1. }
    assert (Hab : a = b).
    { pose proof (Hstable a Ha) as Hfilter. cbn [List.filter] in Hfilter.
      rewrite (tied_refl a Ha) in Hfilter.
      destruct (tied comparefn a b) eqn:Htie; [congruence|].
      exfalso.
      assert (Ha_t2 : a ∈ t2).
      { apply list_elem_of_In.
        apply (proj1 (filter_In (tied comparefn a) a t2)).
        rewrite <- Hfilter. now left. }
      apply elem_of_cons in Hb_in as [->|Hb_t1].
      - rewrite (tied_refl a Ha) in Htie. discriminate.
      - rewrite (mayPrecede_both_ways a b Ha Hb) in Htie; [discriminate|auto|auto]. }
    subst b. f_equal. apply IH; try assumption.
    + now apply Permutation_cons_inv in Hperm.
    + intros z Hz. pose proof (Hstable z Hz) as Hfilter. cbn [List.filter] in Hfilter.
      destruct (tied comparefn z a); congruence.
Qed.

(** The insertion sort computes that arrangement. *)
Lemma arraySort_is_the_stable_arrangement (arrangement : list JSValue) :
  arrangement ≡ₚ elems ->
  StronglySorted (mayPrecede comparefn) arrangement ->
  (forall z, z ∈ elems ->
     List.filter (tied comparefn z) arrangement = List.filter (tied comparefn z) elems) ->
  arraySort comparefn elems = Normal arrangement.
Proof.
  intros Hperm Hsorted Hstable.
  assert (Hall : Forall (fun v => v ∈ elems) elems) by (rewrite Forall_forall; auto).
  destruct (arraySort_sorted comparefn elems consistent elems Hall)
    as (sorted & Hsort & Hperm' & Hsorted').
  rewrite Hsort. f_equal.
  apply stable_arrangement_unique; try assumption.
  - now rewrite Hperm'.
  - now rewrite Hperm', Hperm.
  - intros z Hz. rewrite (arraySort_stable z elems sorted Hz Hall Hsort).
    symmetry. now apply Hstable.
Qed.

End StableArrangement.

Section SortObjectArrayFurther.
Context {host : Host}.

Lemma insertSorted_no_fields_defined (x : JSValue) (l : list JSValue) :
  isUndefined x = false -> insertSorted (sortComparator []) x l = Normal (x :: l).
Proof.
  intros Hx. destruct l as [|y rest]; [reflexivity|].
  destruct x; try discriminate; destruct y; reflexivity.
Qed.

Lemma arraySort_no_fields (elems : list JSValue) :
  arraySort (sortComparator []) elems
  = Normal (List.filter (fun v => negb (isUndefined v)) elems
            ++ List.filter isUndefined elems)%list.
Proof.
  induction elems as [|x rest IH]; [reflexivity|].
  cbn [arraySort]. rewrite IH. cbn [mbind Completion_bind].
  destruct (isUndefined x) eqn:Hx.
  - destruct x; try discriminate. cbn [List.filter isUndefined negb].
    apply insertSorted_undefined; [|apply Forall_filter_true].
    eapply Forall_impl; [apply Forall_filter_true|].
    intros v Hv. now apply negb_true_iff in Hv.
  - rewrite insertSorted_no_fields_defined by assumption.
    cbn [List.filter]. now rewrite Hx.
Qed.

(** X17. An array that is in order already is left exactly as it is.  When
    the comparator is a consistent comparison function for the elements
    (ECMA-262) and allows each element before all later ones,
    [sortObjectArray] returns the array with the store unchanged; and the
    array as it stands is the only arrangement of its elements that is in
    order and keeps tied elements in the order they have, which is the
    arrangement ECMA-262 requires of [sort]. *)
Theorem X17_array_in_order_is_left_alone
  (array : ArrayRef) (sort : list SortField) (store : gmap nat (list JSValue))
  (elems : list JSValue) :
  store !! array = Some elems ->
  consistentOn (sortComparator sort) elems ->
  (forall (i j : nat) (x y : JSValue),
      (i < j)%nat -> elems !! i = Some x -> elems !! j = Some y ->
      mayPrecede (sortComparator sort) x y) ->
  sortObjectArray array sort store = Normal (array, store)
  /\ forall arrangement : list JSValue,
       arrangement ≡ₚ elems ->
       (forall (i j : nat) (x y : JSValue),
           (i < j)%nat -> arrangement !! i = Some x -> arrangement !! j = Some y ->
           mayPrecede (sortComparator sort) x y) ->
       (forall z, z ∈ elems ->
          List.filter (tied (sortComparator sort) z) arrangement
          = List.filter (tied (sortComparator sort) z) elems) ->
       arrangement = elems.
Proof.
  intros Hstore Hcons Horder. apply StronglySorted_of_lookup in Horder. split.
  - unfold sortObjectArray. rewrite Hstore, (arraySort_in_order _ _ Horder). simpl.
    now rewrite insert_id.
  - intros arrangement Hperm Hsorted Hstable. apply StronglySorted_of_lookup in Hsorted.
    apply (stable_arrangement_unique _ elems Hcons); try assumption.
    rewrite Hperm. rewrite Forall_forall. auto.
Qed.

(** X18. Sorting is idempotent: when the comparator is a consistent
    comparison function for the elements (ECMA-262), a second
    [sortObjectArray] with the same sort fields returns normally and leaves
    the store as the first one made it. *)
Theorem X18_sorting_twice_is_sorting_once
  (array : ArrayRef) (sort : list SortField) (store : gmap nat (list JSValue))
  (elems : list JSValue) :
  store !! array = Some elems ->
  consistentOn (sortComparator sort) elems ->
  exists store' : gmap nat (list JSValue),
    sortObjectArray array sort store = Normal (array, store')
    /\ sortObjectArray array sort store' = Normal (array, store').
Proof.
  intros Hstore Hcons.
  destruct (arraySort_sorted (sortComparator sort) elems Hcons elems)
    as (sorted & Hsort & _ & Hsorted).
  { rewrite Forall_forall. auto. }
  exists (<[array := sorted]> store). unfold sortObjectArray.
  rewrite Hstore, Hsort, lookup_insert_eq, (arraySort_in_order _ _ Hsorted). simpl.
  now rewrite insert_insert_eq.
Qed.

(** X19. Whatever the sort fields are, when [sortObjectArray] returns, the
    [undefined] elements of the array stand after all others: nothing but
    [undefined] follows an [undefined]. *)
Theorem X19_undefined_elements_go_last
  (array : ArrayRef) (sort : list SortField) (store : gmap nat (list JSValue))
  (elems : list JSValue) (result : ArrayRef * gmap nat (list JSValue)) :
  store !! array = Some elems ->
  sortObjectArray array sort store = Normal result ->
  exists sorted : list JSValue,
    result = (array, <[array := sorted]> store)
    /\ forall (i j : nat) (y : JSValue),
         (i < j)%nat -> sorted !! i = Some VUndefined -> sorted !! j = Some y ->
         y = VUndefined.
Proof.
  intros Hstore. unfold sortObjectArray. rewrite Hstore.
  destruct (arraySort (sortComparator sort) elems) as [sorted|e] eqn:Hsort; [|discriminate].
  simpl. intros [= <-]. exists sorted. split; [reflexivity|].
  intros i j y Hij Hi Hj.
  pose proof (StronglySorted_lookup _ _ (arraySort_undefined_last _ _ _ Hsort)
                i j VUndefined y Hij Hi Hj eq_refl) as Hy.
  destruct y; try discriminate. reflexivity.
Qed.

(** X20. With no sort fields every comparison is a tie and
    [sortObjectArray] always returns: the elements keep their order, except
    that the [undefined] ones move to the end. *)
Theorem X20_no_sort_fields_keeps_the_order
  (array : ArrayRef) (store : gmap nat (list JSValue)) (elems : list JSValue) :
  store !! array = Some elems ->
  sortObjectArray array [] store
  = Normal (array,
            <[array := (List.filter (fun v => negb (isUndefined v)) elems
                        ++ List.filter isUndefined elems)%list]> store).
Proof.
  intros Hstore. unfold sortObjectArray. now rewrite Hstore, arraySort_no_fields.
Qed.

Lemma forSortFields_sameOrdering (sort sort' : list SortField) (a b : JSValue) (c : Z) :
  Forall2 sameOrdering sort sort' ->
  forSortFields a b sort c = forSortFields a b sort' c.
Proof.
  intros H. revert c.
  induction H as [|s t rest rest' (Ha & Hd & Hc) _ IH]; intros c; [reflexivity|].
  cbn [forSortFields]. rewrite Ha, Hd, Hc.
  destruct (getValueFromObject a (attributeId t)) as [valueA|e]; [|reflexivity]. simpl.
  destruct (getValueFromObject b (attributeId t)) as [valueB|e]; [|reflexivity]. simpl.
  destruct (compareValues valueA valueB _ _) as [c'|e]; [|reflexivity]. simpl.
  destruct (negb (c' =? 0)); [reflexivity | apply IH].
Qed.

(** X21. The sort reads three things of a sort field: the attribute, whether
    [descending] is truthy and whether [caseInsensitive] is truthy.  A flag
    left out is the flag set to [false], and [autoSequence] plays no part. *)
Theorem X21_sort_reads_attribute_direction_and_case
  (array : ArrayRef) (sort sort' : list SortField) (store : gmap nat (list JSValue)) :
  Forall2 sameOrdering sort sort' ->
  sortObjectArray array sort store = sortObjectArray array sort' store.
Proof.
  intros H. unfold sortObjectArray. destruct (store !! array) as [elems|]; [|reflexivity].
  rewrite (arraySort_ext (sortComparator sort) (sortComparator sort')); [reflexivity|].
  intros a b. now apply forSortFields_sameOrdering.
Qed.

End SortObjectArrayFurther.

(** Two rows with different [b], in ascending order. *)
Lemma ascending_rows_consistent :
  consistentOn
    (@sortComparator exampleHost
       [ {| attributeId := "b"; descending := None; caseInsensitive := None;
            autoSequence := None |} ])
    [VObject [("b", num 1)]; VObject [("b", num 2)]].
Proof.
  apply (consistentOn_by_rank _
           (fun v => match descend v "b" with VNumber (Int z) => z | _ => 0 end)).
  intros a b Ha Hb. one_of_two Ha; one_of_two Hb;
    eexists; split; reflexivity.
Qed.

Lemma X17_witness :
  @sortObjectArray exampleHost 0%nat
    [ {| attributeId := "b"; descending := None; caseInsensitive := None;
         autoSequence := None |} ]
    {[ 0%nat := [VObject [("b", num 1)]; VObject [("b", num 2)]] ]}
  = Normal (0%nat, {[ 0%nat := [VObject [("b", num 1)]; VObject [("b", num 2)]] ]}).
Proof.
  apply (@X17_array_in_order_is_left_alone exampleHost 0%nat _ _
           [VObject [("b", num 1)]; VObject [("b", num 2)]]).
  - apply lookup_singleton_eq.
  - exact ascending_rows_consistent.
  - apply StronglySorted_lookup. repeat constructor.
    exists (-1). split; [reflexivity | lia].
Defined.

Lemma X18_witness :
  exists store' : gmap nat (list JSValue),
    @sortObjectArray exampleHost 0%nat
      [ {| attributeId := "a"; descending := None; caseInsensitive := None;
           autoSequence := None |};
        {| attributeId := "b"; descending := None; caseInsensitive := None;
           autoSequence := None |} ]
      {[ 0%nat := [VObject [("a", num 1); ("b", num 2)];
                   VObject [("a", num 1); ("b", num 1)]] ]}
    = Normal (0%nat, store')
    /\ @sortObjectArray exampleHost 0%nat
         [ {| attributeId := "a"; descending := None; caseInsensitive := None;
              autoSequence := None |};
           {| attributeId := "b"; descending := None; caseInsensitive := None;
              autoSequence := None |} ]
         store'
       = Normal (0%nat, store').
Proof.
  apply (@X18_sorting_twice_is_sorting_once exampleHost 0%nat _ _
           [VObject [("a", num 1); ("b", num 2)]; VObject [("a", num 1); ("b", num 1)]]).
  - apply lookup_singleton_eq.
  - exact example_rows_consistent.
Defined.

Lemma X19_witness :
  exists sorted : list JSValue,
    (0%nat, <[0%nat := [num 1; VUndefined]]> ({[ 0%nat := [VUndefined; num 1] ]}
                                               : gmap nat (list JSValue)))
    = (0%nat, <[0%nat := sorted]> {[ 0%nat := [VUndefined; num 1] ]})
    /\ forall (i j : nat) (y : JSValue),
         (i < j)%nat -> sorted !! i = Some VUndefined -> sorted !! j = Some y ->
         y = VUndefined.
Proof.
  apply (@X19_undefined_elements_go_last exampleHost 0%nat
           [ {| attributeId := "a"; descending := Some true; caseInsensitive := None;
                autoSequence := None |} ]
           {[ 0%nat := [VUndefined; num 1] ]} [VUndefined; num 1]).
  - apply lookup_singleton_eq.
  - unfold sortObjectArray. rewrite lookup_singleton_eq. reflexivity.
Defined.

Lemma X20_witness :
  @sortObjectArray exampleHost 0%nat [] {[ 0%nat := [num 2; VUndefined; num 1] ]}
  = Normal (0%nat,
            <[0%nat := [num 2; num 1; VUndefined]]> {[ 0%nat := [num 2; VUndefined; num 1] ]}).
Proof.
  apply (@X20_no_sort_fields_keeps_the_order exampleHost 0%nat
           {[ 0%nat := [num 2; VUndefined; num 1] ]} [num 2; VUndefined; num 1]).
  apply lookup_singleton_eq.
Defined.

Lemma X21_witness :
  @sortObjectArray exampleHost 0%nat
    [ {| attributeId := "a"; descending := None; caseInsensitive := None;
         autoSequence := Some true |} ]
    {[ 0%nat := [VObject [("a", num 2)]; VObject [("a", num 1)]] ]}
  = @sortObjectArray exampleHost 0%nat
      [ {| attributeId := "a"; descending := Some false; caseInsensitive := Some false;
           autoSequence := None |} ]
      {[ 0%nat := [VObject [("a", num 2)]; VObject [("a", num 1)]] ]}.
Proof.
  apply (@X21_sort_reads_attribute_direction_and_case exampleHost).
  repeat constructor.
Defined.

(** ** Session initializer, further *)

(** X22. [initialize] throws exactly when the event is [undefined] or
    [null], where reading [event.body] fails; for every other event it
    returns. *)
Theorem X22_initialize_throws_only_without_event (event : JSValue) (st : Session) :
  (exists e : JSError, initialize event st = Throw e)
  <-> (event = VUndefined \/ event = VNull).
Proof.
  split.
  - intros [e H]. unfold initialize in H.
    destruct (getProp event "body") as [eventBody|e'] eqn:Hbody.
    + exfalso. simpl in H. destruct (truthy eventBody) eqn:Hb.
      * rewrite Hb in H. rewrite assignFrom_truthy in H by assumption. discriminate.
      * destruct (truthy event) eqn:He; [|discriminate].
        rewrite assignFrom_truthy in H by assumption. discriminate.
    + destruct event; simpl in Hbody; try discriminate; auto.
  - intros [-> | ->]; eexists; reflexivity.
Qed.

(** X23. [initialize] is idempotent: a second call with the same event
    leaves the session as the first call made it. *)
Theorem X23_initialize_is_idempotent (event : JSValue) (st st' : Session) :
  initialize event st = Normal st' -> initialize event st' = Normal st'.
Proof.
  unfold initialize.
  destruct (getProp event "body") as [eventBody|e]; [|discriminate]. simpl.
  destruct (truthy eventBody) eqn:Hb.
  - rewrite !Hb. rewrite !assignFrom_truthy by assumption. intros [= <-]. reflexivity.
  - destruct (truthy event) eqn:He.
    + rewrite !assignFrom_truthy by assumption. intros [= <-]. reflexivity.
    + intros [= <-]. reflexivity.
Qed.

(** X24. The body of an event is not parsed.  When [event.body] is a
    non-empty string, as it is when the JSON text of the body arrives
    unparsed, [initialize] returns with [useBody] set and all six session
    fields [undefined], whatever the text holds. *)
Theorem X24_string_body_is_not_parsed
  (fields : list (string * JSValue)) (text : string) (st : Session) :
  lookupField "body" fields = Some (VString text) -> text <> "" ->
  exists st' : Session,
    initialize (VObject fields) st = Normal st'
    /\ sessionFields st' = map (fun name => (name, VUndefined)) sessionFieldNames
    /\ useBody st' = VBool true.
Proof.
  intros Hbody Htext.
  pose proof (initialize_object fields st) as Hinit. cbv zeta in Hinit.
  assert (Hd : descend (VObject fields) "body" = VString text)
    by (unfold descend; simpl; now rewrite Hbody).
  assert (Ht : truthy (VString text) = true).
  { simpl. destruct (String.eqb text "") eqn:E; [|reflexivity].
    apply String.eqb_eq in E. contradiction. }
  unfold fieldSource in Hinit. rewrite Hd, Ht in Hinit.
  eexists. split; [exact Hinit|]. split; reflexivity.
Qed.

Lemma X23_witness :
  initialize (VObject [("body", VObject [("authToken", str "t")])])
    {| authToken := str "t"; sandboxKey := VUndefined; serviceAddress := VUndefined;
       actionSubject := VUndefined; userContext := VUndefined; params := VUndefined;
       useBody := VBool true |}
  = Normal
      {| authToken := str "t"; sandboxKey := VUndefined; serviceAddress := VUndefined;
         actionSubject := VUndefined; userContext := VUndefined; params := VUndefined;
         useBody := VBool true |}.
Proof.
  apply (X23_initialize_is_idempotent
           (VObject [("body", VObject [("authToken", str "t")])]) freshSession).
  reflexivity.
Defined.

Lemma X24_witness :
  exists st' : Session,
    initialize (VObject [("body", VString "authToken=t")]) freshSession = Normal st'
    /\ sessionFields st' = map (fun name => (name, VUndefined)) sessionFieldNames
    /\ useBody st' = VBool true.
Proof.
  apply (X24_string_body_is_not_parsed [("body", VString "authToken=t")] "authToken=t");
    [reflexivity | discriminate].
Defined.
